(** * Tic-tac-toe: rules engine and session service

    A shallow embedding of [internal/domain] (the rules engine) and
    [internal/app] (the session service with its subscriber registry),
    together with the properties stated about them. *)

From Stdlib Require Import ZArith Bool List Lia.
From stdpp Require Import gmap strings list fin_maps sorting.

Local Open Scope Z_scope.

(** ** Go's [int] *)

(** [int] is a 64-bit two's complement integer on the platforms the server
    targets; [int_wrap] is the wrap-around of its arithmetic. *)
Definition int_bits : Z := 64.
Definition int_min : Z := - 2 ^ (int_bits - 1).
Definition int_max : Z := 2 ^ (int_bits - 1) - 1.
Definition int_wrap (z : Z) : Z :=
  (z + 2 ^ (int_bits - 1)) mod 2 ^ int_bits - 2 ^ (int_bits - 1).

(** ** package domain *)

Module domain.

(** [type Cell uint8] with the constants [Empty], [X], [O], the only values
    of the type that the program makes. *)
Inductive Cell : Set := Empty | X | O.

#[global] Instance Cell_eq_dec : EqDecision Cell.
Proof. solve_decision. Defined.

#[global] Instance Cell_inhabited : Inhabited Cell := populate Empty.

(** [type Board [9]Cell], row-major.  A board is a list of cells; the
    array type fixes its length at 9 ([board_ok]). *)
Definition board_ok (b : list Cell) : Prop := length b = 9%nat.

Record Game : Set := mkGame {
  Board : list Cell;
  Turn : Cell;
  Winner : Cell;
  Over : bool;
  Moves : Z
}.

Inductive Error : Set := ErrOutOfBounds | ErrOccupied | ErrGameOver.

(** [New]: [Game{Turn: X}], every other field has its zero value. *)
Definition New : Game :=
  {| Board := replicate 9 Empty; Turn := X; Winner := Empty;
     Over := false; Moves := 0 |}.

(** The table of [hasWin]: rows, columns, diagonals. *)
Definition lines : list (nat * nat * nat) :=
  [ (0, 1, 2); (3, 4, 5); (6, 7, 8);
    (0, 3, 6); (1, 4, 7); (2, 5, 8);
    (0, 4, 8); (2, 4, 6) ]%nat.

(** The test of one line in the loop of [hasWin]. *)
Definition line_is (b : list Cell) (side : Cell) (ln : nat * nat * nat) : bool :=
  let '(i, j, k) := ln in
  bool_decide (b !!! i = side) && bool_decide (b !!! j = side)
  && bool_decide (b !!! k = side).

(** The loop of [hasWin]: return [true] at the first line that matches. *)
Fixpoint hasWin_loop (lns : list (nat * nat * nat)) (b : list Cell) (side : Cell) : bool :=
  match lns with
  | [] => false
  | ln :: rest => if line_is b side ln then true else hasWin_loop rest b side
  end.

Definition hasWin (b : list Cell) (side : Cell) : bool := hasWin_loop lines b side.

(** The turn flip at the end of [Play]: [if g.Turn == X { O } else { X }]. *)
Definition flip (t : Cell) : Cell := if bool_decide (t = X) then O else X.

(** [Play] mutates the game behind its receiver and returns an error; here it
    returns the game after the call together with the error ([None] is Go's
    [nil]).  Past the bounds check [r*3 + c] lies in 0..8, so the product
    does not wrap and the index is on the board. *)
Definition Play (g : Game) (r c : Z) : Game * option Error :=
  if Over g then (g, Some ErrGameOver)
  else if (r <? 0) || (r >? 2) || (c <? 0) || (c >? 2) then (g, Some ErrOutOfBounds)
  else
    let idx := Z.to_nat (r * 3 + c) in
    if negb (bool_decide (Board g !!! idx = Empty)) then (g, Some ErrOccupied)
    else
      (* Place the mark *)
      let board := <[idx := Turn g]> (Board g) in
      let moves := int_wrap (Moves g + 1) in
      (* Check for a win *)
      if hasWin board (Turn g) then
        ({| Board := board; Turn := Turn g; Winner := Turn g;
            Over := true; Moves := moves |}, None)
      (* Check for draw *)
      else if moves =? 9 then
        ({| Board := board; Turn := Turn g; Winner := Empty;
            Over := true; Moves := moves |}, None)
      (* Flip turn *)
      else
        ({| Board := board; Turn := flip (Turn g); Winner := Winner g;
            Over := Over g; Moves := moves |}, None).

(** [playMoves] of the tests: apply the moves in order, stop at the first
    one that fails. *)
Fixpoint playMoves (g : Game) (moves : list (Z * Z)) : option Game :=
  match moves with
  | [] => Some g
  | (r, c) :: rest =>
      match Play g r c with
      | (g', None) => playMoves g' rest
      | (_, Some _) => None
      end
  end.

(** States reachable from [New] by accepted moves. *)
Inductive reachable : Game -> Prop :=
| reach_New : reachable New
| reach_Play g r c g' :
    reachable g -> Play g r c = (g', None) -> reachable g'.

(** One call of [Play], accepted or rejected. *)
Definition step (g g' : Game) : Prop := exists r c, fst (Play g r c) = g'.

(** Any number of calls of [Play], accepted or rejected. *)
Inductive steps : Game -> Game -> Prop :=
| steps_refl g : steps g g
| steps_call g g1 g2 : steps g g1 -> step g1 g2 -> steps g g2.

(** One of the 8 lines of the table holds [side] in its three cells. *)
Definition line_of (b : list Cell) (side : Cell) : Prop :=
  exists i j k, (i, j, k) ∈ lines /\
    b !!! i = side /\ b !!! j = side /\ b !!! k = side.


(** The number of cells that hold [side], and the number of marked cells. *)
Definition count (side : Cell) (b : list Cell) : nat :=
  length (filter (fun x => x = side) b).
Definition marked (b : list Cell) : nat :=
  length (filter (fun x => x <> Empty) b).





(** Whose mark count is ahead, against the turn tag: while the game is
    open the tag names the seat to move, once it is over the seat that moved
    last. *)
Definition balanced (t : Cell) (over : bool) (b : list Cell) : Prop :=
  if over then
    (t = X /\ count X b = S (count O b)) \/ (t = O /\ count X b = count O b)
  else
    (t = X /\ count X b = count O b) \/ (t = O /\ count X b = S (count O b)).

(** The invariant of the games reachable from [New]. *)
Record game_inv (g : Game) : Prop := mkInv {
  inv_board : board_ok (Board g);
  inv_moves : Moves g = Z.of_nat (marked (Board g));
  inv_turn : balanced (Turn g) (Over g) (Board g);
  inv_open :
    Over g = false ->
    hasWin (Board g) X = false /\ hasWin (Board g) O = false /\
    Winner g = Empty /\ Moves g < 9;
  inv_over :
    Over g = true ->
    (Winner g = Turn g /\ hasWin (Board g) (Turn g) = true /\
     hasWin (Board g) (flip (Turn g)) = false)
    \/ (Winner g = Empty /\ Moves g = 9 /\
        hasWin (Board g) X = false /\ hasWin (Board g) O = false)
}.

End domain.

(** ** package app *)

Module app.

(** A [time.Time] is an instant on the clock, a [Z]; a rendered payload
    ([[]byte]) is a [list Byte.byte]. *)

(** Go's [error] values that [Service] returns: its own three sentinels and
    the ones of the rules engine, passed on as they are. *)
Inductive error : Set :=
| ErrNotFound
| ErrNotYourTurn
| ErrNotAPlayer
| ErrDomain (e : domain.Error).

Record GameState : Set := mkGameState {
  ID : string;
  Game : domain.Game;
  X : string;
  O : string;
  Created : Z;
  Updated : Z
}.

(** [subscriber]: the channel [ch] (capacity 1) as the queue of payloads it
    buffers, and whether [close(ch)] has run ([closeOnce]). *)
Record subscriber : Set := mkSubscriber {
  ch : list (list Byte.byte);
  closed : bool
}.

Definition ch_cap : nat := 1.

(** [sub.close()]: [closeOnce] makes every call after the first a no-op. *)
Definition close (sub : subscriber) : subscriber :=
  if closed sub then sub else {| ch := ch sub; closed := true |}.

(** [Service].  [games] maps an id to its [*GameState]; no pointer to a
    stored state escapes (every method returns a copy), so the map holds
    the states themselves.  Subscribers are shared between the registry
    and their consumers: [heap] maps the address of each allocated
    [*subscriber] to its state, [subs] holds the sets of addresses. *)
Record Service : Type := mkService {
  games : gmap string GameState;
  subs : gmap string (gset nat);
  heap : gmap nat subscriber;
  render : GameState -> list Byte.byte
}.

Definition nil_renderer : GameState -> list Byte.byte := fun _ => [].

(** [NewServiceWithRenderer]; [None] is a nil renderer. *)
Definition NewServiceWithRenderer (renderer : option (GameState -> list Byte.byte)) : Service :=
  {| games := ∅; subs := ∅; heap := ∅;
     render := match renderer with Some f => f | None => nil_renderer end |}.

Definition NewService : Service := NewServiceWithRenderer (Some nil_renderer).

Definition SetRenderer (s : Service) (renderer : option (GameState -> list Byte.byte)) : Service :=
  {| games := games s; subs := subs s; heap := heap s;
     render := match renderer with Some f => f | None => nil_renderer end |}.

(** [CreateGame]; [id] is what [uuid.NewString()] returns and [now] what
    [time.Now()] returns. *)
Definition CreateGame (s : Service) (id : string) (now : Z) : Service * GameState :=
  let gs := {| ID := id; Game := domain.New; X := EmptyString; O := EmptyString;
               Created := now; Updated := now |} in
  ({| games := <[id := gs]> (games s); subs := subs s; heap := heap s;
      render := render s |}, gs).

Definition Get (s : Service) (id : string) : option GameState := games s !! id.

(** A game state with its two seats set. *)
Definition with_seats (gs : GameState) (x o : string) : GameState :=
  {| ID := ID gs; Game := Game gs; X := x; O := o;
     Created := Created gs; Updated := Updated gs |}.

(** The seat assignment of [Join]. *)
Definition seat_join (gs : GameState) (playerID : string) : GameState * domain.Cell :=
  if bool_decide (X gs = EmptyString) || bool_decide (X gs = playerID) then
    ({| ID := ID gs; Game := Game gs; X := playerID; O := O gs;
        Created := Created gs; Updated := Updated gs |}, domain.X)
  else if bool_decide (O gs = EmptyString) || bool_decide (O gs = playerID) then
    ({| ID := ID gs; Game := Game gs; X := X gs; O := playerID;
        Created := Created gs; Updated := Updated gs |}, domain.O)
  else (gs, domain.Empty).

Definition touch (gs : GameState) (now : Z) : GameState :=
  {| ID := ID gs; Game := Game gs; X := X gs; O := O gs;
     Created := Created gs; Updated := now |}.

(** [Join] returns the service after the call and [(side, copy, err)]. *)
Definition Join (s : Service) (id playerID : string) (now : Z)
  : Service * (domain.Cell * option GameState * option error) :=
  match games s !! id with
  | None => (s, (domain.Empty, None, Some ErrNotFound))
  | Some gs =>
      let '(gs1, side) := seat_join gs playerID in
      let gs2 := touch gs1 now in
      ({| games := <[id := gs2]> (games s); subs := subs s; heap := heap s;
          render := render s |}, (side, Some gs2, None))
  end.

(** What one call of [Play] does, in order. *)
Inductive Event : Set :=
| EvLock
| EvUnlock
| EvRender (cp : GameState)
| EvSend (a : nat)
| EvClose (a : nat)
| EvDelete (a : nat).

(** [copySubsLocked]. *)
Definition copySubsLocked (s : Service) (id : string) : gset nat :=
  match subs s !! id with
  | Some set => set
  | None => ∅
  end.

(** [select { case sub.ch <- payload: default: }].  A send on a closed
    channel panics; a send on a full one takes the default branch. *)
Inductive send_outcome : Set :=
| Sent (sub' : subscriber)
| Full
| SendOnClosed.

Definition try_send (p : list Byte.byte) (sub : subscriber) : send_outcome :=
  if closed sub then SendOnClosed
  else if bool_decide (length (ch sub) < ch_cap)%nat then
    Sent {| ch := ch sub ++ [p]; closed := closed sub |}
  else Full.

(** The fan-out loop of [Play] over the snapshot [snap]; [None] is a panic
    (a send on a closed channel; an address outside the heap does not exist
    in Go and is treated alike). *)
Fixpoint fanout (snap : list nat) (p : list Byte.byte) (h : gmap nat subscriber)
    (toDrop : list nat) (tr : list Event)
  : option (gmap nat subscriber * list nat * list Event) :=
  match snap with
  | [] => Some (h, toDrop, tr)
  | a :: rest =>
      match h !! a with
      | None => None
      | Some sub =>
          match try_send p sub with
          | Sent sub' => fanout rest p (<[a := sub']> h) toDrop (tr ++ [EvSend a])
          | Full => fanout rest p (<[a := close sub]> h) (toDrop ++ [a]) (tr ++ [EvClose a])
          | SendOnClosed => None
          end
      end
  end.

(** [if set, ok := s.subs[id]; ok { delete(set, sub) }]. *)
Definition delete_sub (id : string) (m : gmap string (gset nat)) (a : nat)
  : gmap string (gset nat) :=
  match m !! id with
  | Some set => <[id := set ∖ {[a]}]> m
  | None => m
  end.

(** The second critical section of [Play], entered when [toDrop] is not
    empty. *)
Definition drop_all (id : string) (toDrop : list nat) (m : gmap string (gset nat))
  : gmap string (gset nat) * list Event :=
  match toDrop with
  | [] => (m, [])
  | _ => (foldl (delete_sub id) m toDrop,
          [EvLock] ++ map EvDelete toDrop ++ [EvUnlock])
  end.

(** The seat of [playerID], as [Play] finds it. *)
Definition seat_of (gs : GameState) (playerID : string) : option domain.Cell :=
  if bool_decide (X gs = playerID) then Some domain.X
  else if bool_decide (O gs = playerID) then Some domain.O
  else None.

Record PlayResult : Type := mkPlayResult {
  after : Service;
  result : option GameState;
  err : option error;
  trace : list Event
}.

(** [Play]; [now] is what [time.Now()] returns.  [None] is a panic.  Go
    ranges over the snapshot in an unspecified order; the loop here takes its
    elements in the order of [elements], and the service after the call does
    not depend on that order (lemma [fanout_any_order]). *)
Definition Play (s : Service) (id playerID : string) (r c : Z) (now : Z)
  : option PlayResult :=
  match games s !! id with
  | None => Some (mkPlayResult s None (Some ErrNotFound) [EvLock; EvUnlock])
  | Some gs =>
      (* Validate player is seated *)
      match seat_of gs playerID with
      | None => Some (mkPlayResult s None (Some ErrNotAPlayer) [EvLock; EvUnlock])
      | Some seat =>
          (* Validate turn *)
          if negb (bool_decide (seat = domain.Turn (Game gs))) then
            Some (mkPlayResult s None (Some ErrNotYourTurn) [EvLock; EvUnlock])
          else
            (* Apply move *)
            match domain.Play (Game gs) r c with
            | (_, Some e) =>
                Some (mkPlayResult s None (Some (ErrDomain e)) [EvLock; EvUnlock])
            | (g', None) =>
                let cp := {| ID := ID gs; Game := g'; X := X gs; O := O gs;
                             Created := Created gs; Updated := now |} in
                let games' := <[id := cp]> (games s) in
                (* Snapshot state and subscribers *)
                let snap := copySubsLocked s id in
                let p := render s cp in
                (* Fan-out *)
                match fanout (elements snap) p (heap s) []
                             [EvLock; EvRender cp; EvUnlock] with
                | None => None
                | Some (heap', toDrop, tr) =>
                    let '(subs', tr2) := drop_all id toDrop (subs s) in
                    Some (mkPlayResult
                            {| games := games'; subs := subs'; heap := heap';
                               render := render s |}
                            (Some cp) None (tr ++ tr2))
                end
            end
      end
  end.

(** [Subscribe]; [now1] and [now2] are what its two calls of [time.Now()]
    return.  It returns the service after the call and the address of the
    new subscriber, whose channel is what the caller reads from. *)
Definition Subscribe (s : Service) (id : string) (now1 now2 : Z) : Service * nat :=
  let games' :=
    match games s !! id with
    | Some _ => games s
    | None => <[id := {| ID := id; Game := domain.New; X := EmptyString;
                         O := EmptyString; Created := now1; Updated := now2 |}]> (games s)
    end in
  let set := match subs s !! id with Some set => set | None => ∅ end in
  let a := fresh (dom (heap s)) in
  ({| games := games'; subs := <[id := set ∪ {[a]}]> (subs s);
      heap := <[a := {| ch := []; closed := false |}]> (heap s);
      render := render s |}, a).

(** The [unsub] closure that [Subscribe] returns for subscriber [a] of [id].
    Its [unsubOnce] makes a second call a no-op; so are the deletion and
    [closeOnce] it guards. *)
Definition unsub (s : Service) (id : string) (a : nat) : Service :=
  {| games := games s; subs := delete_sub id (subs s) a;
     heap := alter close a (heap s); render := render s |}.

(** The consumer's receive [<-ch] on the channel of [a], when a payload is
    buffered. *)
Definition recv (s : Service) (a : nat) : Service * option (list Byte.byte) :=
  match heap s !! a with
  | Some sub =>
      match ch sub with
      | p :: rest =>
          ({| games := games s; subs := subs s;
              heap := <[a := {| ch := rest; closed := closed sub |}]> (heap s);
              render := render s |}, Some p)
      | [] => (s, None)
      end
  | None => (s, None)
  end.

(** *** Runs of the service *)

(** The services that calls of the methods lead to from a new one, with the
    handles [(id, a)] that [Subscribe] has given out: [unsub] is the closure
    of one such handle, and runs for no other pair.  Every step is a whole
    call: these are the runs in which the calls follow one another, none of
    them beginning while the fan-out of a [Play] or the end of an [unsub]
    is still under way.  The runs in which calls overlap are those of
    [conc.reachable]. *)
Inductive reachable : Service -> gset (string * nat) -> Prop :=
| run_New renderer :
    reachable (NewServiceWithRenderer renderer) ∅
| run_SetRenderer s hs renderer :
    reachable s hs -> reachable (SetRenderer s renderer) hs
| run_CreateGame s hs id now :
    reachable s hs -> reachable (fst (CreateGame s id now)) hs
| run_Join s hs id playerID now :
    reachable s hs -> reachable (fst (Join s id playerID now)) hs
| run_Play s hs id playerID r c now res :
    reachable s hs -> Play s id playerID r c now = Some res ->
    reachable (after res) hs
| run_Subscribe s hs id now1 now2 :
    reachable s hs ->
    reachable (fst (Subscribe s id now1 now2))
              ({[ (id, snd (Subscribe s id now1 now2)) ]} ∪ hs)
| run_unsub s hs id a :
    reachable s hs -> (id, a) ∈ hs -> reachable (unsub s id a) hs
| run_recv s hs a :
    reachable s hs -> reachable (fst (recv s a)) hs.

(** What holds of every reachable service: a registered subscriber is one
    that [Subscribe] made for that id, and its channel is open; a handle
    names an allocated subscriber and belongs to one id; no channel holds
    more than its capacity; and the second seat is taken only after the
    first. *)
Record service_inv (s : Service) (hs : gset (string * nat)) : Prop := mkSInv {
  inv_registered :
    forall id set a, subs s !! id = Some set -> a ∈ set ->
      (id, a) ∈ hs /\ exists sub, heap s !! a = Some sub /\ closed sub = false;
  inv_handle :
    forall id a, (id, a) ∈ hs ->
      is_Some (heap s !! a) /\ forall id', (id', a) ∈ hs -> id' = id;
  inv_cap :
    forall a sub, heap s !! a = Some sub -> (length (ch sub) <= ch_cap)%nat;
  inv_seats :
    forall id gs, games s !! id = Some gs ->
      O gs <> EmptyString -> X gs <> EmptyString
}.

(** *** The fan-out, subscriber by subscriber *)

Definition is_full (sub : subscriber) : bool :=
  negb (bool_decide (length (ch sub) < ch_cap)%nat).

(** What the fan-out does to an open subscriber. *)
Definition deliver (p : list Byte.byte) (sub : subscriber) : subscriber :=
  if is_full sub then close sub
  else {| ch := ch sub ++ [p]; closed := closed sub |}.

(** Is the subscriber at [a] full in [h]? *)
Definition full_at (h : gmap nat subscriber) (a : nat) : bool :=
  match h !! a with
  | Some sub => is_full sub
  | None => false
  end.

Definition fanout_event (h : gmap nat subscriber) (a : nat) : Event :=
  if full_at h a then EvClose a else EvSend a.

(** The events of the fan-out loop: sends and closes. *)
Definition is_fanout_event (e : Event) : bool :=
  match e with
  | EvSend _ | EvClose _ => true
  | _ => false
  end.

(** A renderer like [testRenderer] of the tests: the payload tells the
    move count, here by its length. *)
Definition testRenderer (gs : GameState) : list Byte.byte :=
  replicate (Z.to_nat (domain.Moves (Game gs))) Byte.x2a.

(** *** The mutex along a trace *)

(** [discipline held tr]: along [tr], starting with the mutex held or not,
    it is locked only when free and unlocked only when held, it is free at
    the end, the renderer and the registry deletions run while it is held,
    and the sends and closes run while it is free. *)
Fixpoint discipline (held : bool) (tr : list Event) : bool :=
  match tr with
  | [] => negb held
  | EvLock :: rest => negb held && discipline true rest
  | EvUnlock :: rest => held && discipline false rest
  | EvRender _ :: rest => held && discipline held rest
  | EvDelete _ :: rest => held && discipline held rest
  | EvSend _ :: rest => negb held && discipline held rest
  | EvClose _ :: rest => negb held && discipline held rest
  end.

(** [renders_unlocked held tr]: every call of the renderer along [tr]
    happens while the mutex is free. *)
Fixpoint renders_unlocked (held : bool) (tr : list Event) : bool :=
  match tr with
  | [] => true
  | EvLock :: rest => renders_unlocked true rest
  | EvUnlock :: rest => renders_unlocked false rest
  | EvRender _ :: rest => negb held && renders_unlocked held rest
  | _ :: rest => renders_unlocked held rest
  end.

(** The snapshots that the renderer was called on along a trace. *)
Definition rendered (tr : list Event) : list GameState :=
  omap (fun e => match e with EvRender cp => Some cp | _ => None end) tr.

(** *** Joins of spectators, and a consumer that keeps up *)

(** Any number of calls of [Join] on [id] that return [domain.Empty]. *)
Inductive spectator_joins (id : string) : Service -> Service -> Prop :=
| spectators_none s : spectator_joins id s s
| spectators_more s s1 s2 q now gs :
    spectator_joins id s s1 ->
    Join s1 id q now = (s2, (domain.Empty, Some gs, None)) ->
    spectator_joins id s s2.


End app.

(** ** package web *)

Module web.

#[global] Instance domain_Error_eq_dec : EqDecision domain.Error.
Proof. solve_decision. Defined.

#[global] Instance app_error_eq_dec : EqDecision app.error.
Proof. solve_decision. Defined.






End web.

(** ** package app, ids.go *)

Module ids.
Import Stdlib.Strings.Ascii.

(** The digits of [fmt]'s verb [%x]. *)
Definition hex_digit (d : Z) : ascii :=
  nth (Z.to_nat d) (String.list_ascii_of_string "0123456789abcdef"%string) "0"%char.

(** The digits of [n] in base 16, most significant first, in front of
    [acc]; at least one digit. *)
Fixpoint hex_digits (fuel : nat) (n : Z) (acc : list ascii) : list ascii :=
  match fuel with
  | O => acc
  | S fuel' =>
      let acc' := hex_digit (n mod 16) :: acc in
      if n / 16 =? 0 then acc' else hex_digits fuel' (n / 16) acc'
  end.

(** [%0wx] of an unsigned integer of at most 64 bits: its digits, padded
    with zeros on the left to the width [w]. *)
Definition fmt_0x (w : nat) (n : Z) : list ascii :=
  let ds := hex_digits 16 n [] in
  replicate (w - length ds) "0"%char ++ ds.

(** [newUUID]: [b] is the array of 16 bytes after [rand.Read]; the result
    is the string as the list of its characters.  The shifts are on
    [uint32], [uint16] and [uint64] values made from bytes and stay within
    their widths. *)
Definition newUUID (b : list Z) : list ascii :=
  (* Set version (4) and variant (RFC 4122) *)
  let b := <[6%nat := Z.lor (Z.land (b !!! 6%nat) 0x0f) 0x40]> b in
  let b := <[8%nat := Z.lor (Z.land (b !!! 8%nat) 0x3f) 0x80]> b in
  fmt_0x 8 (Z.lor (Z.lor (Z.lor (Z.shiftl (b !!! 0%nat) 24)
                                  (Z.shiftl (b !!! 1%nat) 16))
                           (Z.shiftl (b !!! 2%nat) 8))
                   (b !!! 3%nat))
  ++ "-"%char :: fmt_0x 4 (Z.lor (Z.shiftl (b !!! 4%nat) 8) (b !!! 5%nat))
  ++ "-"%char :: fmt_0x 4 (Z.lor (Z.shiftl (b !!! 6%nat) 8) (b !!! 7%nat))
  ++ "-"%char :: fmt_0x 4 (Z.lor (Z.shiftl (b !!! 8%nat) 8) (b !!! 9%nat))
  ++ "-"%char :: fmt_0x 12 (Z.lor (Z.lor (Z.lor (Z.lor (Z.lor
                          (Z.shiftl (b !!! 10%nat) 40)
                          (Z.shiftl (b !!! 11%nat) 32))
                          (Z.shiftl (b !!! 12%nat) 24))
                          (Z.shiftl (b !!! 13%nat) 16))
                          (Z.shiftl (b !!! 14%nat) 8))
                          (b !!! 15%nat)).

(** The digits of [n] in base 16 at the fixed width [w]. *)
Fixpoint fixed_hex (w : nat) (n : Z) : list ascii :=
  match w with
  | O => []
  | S w' => fixed_hex w' (n / 16) ++ [hex_digit (n mod 16)]
  end.

(** A character of a UUID string: a lower-case hexadecimal digit or the
    hyphen. *)
Definition is_hex (c : ascii) : bool :=
  bool_decide (c ∈ String.list_ascii_of_string "0123456789abcdef"%string).

(** The array is 16 bytes. *)
Definition bytes16 (b : list Z) : Prop :=
  length b = 16%nat /\ Forall (fun x => 0 <= x < 256) b.

End ids.

(** ** Calls that overlap

    [Play] leaves its critical section before it fans out, and the [unsub]
    closure closes the channel after it has unlocked, so other calls run in
    between.  Here a call that is under way is a thread which takes one
    atomic step at a time (a critical section of the mutex, or one
    operation on a channel), and a run interleaves the steps of all the
    calls under way in any order.  The maps of the service are read and
    written inside the mutex only, and outside it a call touches its own
    variables and the channels, so these steps are the only places where
    calls meet.  [Get] changes nothing and is left out. *)

Module conc.
Import app.

(** Where a call stands once it has left its first critical section:
    - [Sending]: [Play] at the head of its loop, with the subscribers of
      its snapshot still to serve and its [toDrop];
    - [Closing]: [Play] in the [default] branch of the [select], before
      [sub.close()];
    - [Unsubscribing]: [unsub] after [s.mu.Unlock()], before [sub.close()];
    - [Returned]: the call is over. *)
Inductive thread : Type :=
| Sending (id : string) (p : list Byte.byte) (todo toDrop : list nat)
| Closing (id : string) (p : list Byte.byte) (a : nat) (todo toDrop : list nat)
| Unsubscribing (a : nat)
| Returned.

(** What a run records as it goes: the publish of thread [i] on [id], with
    its payload and its snapshot in the order of its loop; a payload put
    into the channel of [a] by thread [i]; a payload taken out of the
    channel of [a] by its consumer. *)
Inductive obs : Type :=
| Emit (i : nat) (id : string) (p : list Byte.byte) (snap : list nat)
| Enq (i a : nat) (p : list Byte.byte)
| Recv (a : nat) (p : list Byte.byte).

(** The service, the calls begun so far (a call keeps its index), the
    handles that [Subscribe] has given out, those whose [unsubOnce] has
    fired, and the record of the run. *)
Record config : Type := mkConfig {
  svc : Service;
  threads : list thread;
  handles : gset (string * nat);
  torn : gset (string * nat);
  log : list obs
}.

Definition init (renderer : option (GameState -> list Byte.byte)) : config :=
  {| svc := NewServiceWithRenderer renderer; threads := []; handles := ∅;
     torn := ∅; log := [] |}.

(** The first critical section of [Play], up to [s.mu.Unlock()]: the
    checks, the move, the time stamp and the copy. *)
Inductive begun : Type :=
| Rejected (e : error)
| Accepted (s' : Service) (cp : GameState).

Definition begin_play (s : Service) (id playerID : string) (r c now : Z) : begun :=
  match games s !! id with
  | None => Rejected ErrNotFound
  | Some gs =>
      match seat_of gs playerID with
      | None => Rejected ErrNotAPlayer
      | Some seat =>
          if negb (bool_decide (seat = domain.Turn (Game gs))) then
            Rejected ErrNotYourTurn
          else
            match domain.Play (Game gs) r c with
            | (_, Some e) => Rejected (ErrDomain e)
            | (g', None) =>
                let cp := {| ID := ID gs; Game := g'; X := X gs; O := O gs;
                             Created := Created gs; Updated := now |} in
                Accepted {| games := <[id := cp]> (games s); subs := subs s;
                            heap := heap s; render := render s |} cp
            end
      end
  end.

(** One step of thread [i].  [None]: the thread has no step, because it is
    over or because its send finds the channel closed (Go panics there, and
    the call goes no further). *)
Definition step_thread (i : nat) (s : Service) (t : thread)
  : option (Service * thread * list obs) :=
  match t with
  | Sending id p (a :: rest) toDrop =>
      match heap s !! a with
      | None => None
      | Some sub =>
          match try_send p sub with
          | Sent sub' =>
              Some ({| games := games s; subs := subs s;
                       heap := <[a := sub']> (heap s); render := render s |},
                    Sending id p rest toDrop, [Enq i a p])
          | Full => Some (s, Closing id p a rest toDrop, [])
          | SendOnClosed => None
          end
      end
  | Closing id p a rest toDrop =>
      Some ({| games := games s; subs := subs s;
               heap := alter close a (heap s); render := render s |},
            Sending id p rest (toDrop ++ [a]), [])
  | Sending id p [] toDrop =>
      Some ({| games := games s; subs := fst (drop_all id toDrop (subs s));
               heap := heap s; render := render s |}, Returned, [])
  | Unsubscribing a =>
      Some ({| games := games s; subs := subs s;
               heap := alter close a (heap s); render := render s |},
            Returned, [])
  | Returned => None
  end.

(** What the scheduler picks next: a new call, a receive of a consumer, or
    the next step of a call under way.  [DoPlay] carries the order in which
    the loop ranges over the copied map. *)
Inductive action : Type :=
| DoSetRenderer (renderer : option (GameState -> list Byte.byte))
| DoCreateGame (id : string) (now : Z)
| DoJoin (id playerID : string) (now : Z)
| DoPlay (id playerID : string) (r c now : Z) (order : list nat)
| DoSubscribe (id : string) (now1 now2 : Z)
| DoUnsub (id : string) (a : nat)
| DoRecv (a : nat)
| DoStep (i : nat).

Definition set_svc (c : config) (s : Service) : config :=
  {| svc := s; threads := threads c; handles := handles c; torn := torn c;
     log := log c |}.

(** [exec c act]: the configuration after [act], when [act] can happen in
    [c]. *)
Definition exec (c : config) (act : action) : option config :=
  let s := svc c in
  match act with
  | DoSetRenderer renderer => Some (set_svc c (SetRenderer s renderer))
  | DoCreateGame id now => Some (set_svc c (fst (CreateGame s id now)))
  | DoJoin id playerID now => Some (set_svc c (fst (Join s id playerID now)))
  | DoPlay id playerID r col now order =>
      match begin_play s id playerID r col now with
      | Rejected _ => Some c
      | Accepted s' cp =>
          if bool_decide (order ≡ₚ elements (copySubsLocked s id)) then
            Some {| svc := s';
                    threads := threads c ++ [Sending id (render s cp) order []];
                    handles := handles c; torn := torn c;
                    log := log c ++ [Emit (length (threads c)) id (render s cp) order] |}
          else None
      end
  | DoSubscribe id now1 now2 =>
      Some {| svc := fst (Subscribe s id now1 now2); threads := threads c;
              handles := {[ (id, snd (Subscribe s id now1 now2)) ]} ∪ handles c;
              torn := torn c; log := log c |}
  | DoUnsub id a =>
      if bool_decide ((id, a) ∈ handles c) then
        if bool_decide ((id, a) ∈ torn c) then Some c
        else
          Some {| svc := {| games := games s; subs := delete_sub id (subs s) a;
                            heap := heap s; render := render s |};
                  threads := threads c ++ [Unsubscribing a];
                  handles := handles c; torn := {[ (id, a) ]} ∪ torn c;
                  log := log c |}
      else None
  | DoRecv a =>
      match recv s a with
      | (s', Some p) =>
          Some {| svc := s'; threads := threads c; handles := handles c;
                  torn := torn c; log := log c ++ [Recv a p] |}
      | (_, None) => None
      end
  | DoStep i =>
      match threads c !! i with
      | None => None
      | Some t =>
          match step_thread i s t with
          | None => None
          | Some (s', t', o) =>
              Some {| svc := s'; threads := <[i := t']> (threads c);
                      handles := handles c; torn := torn c;
                      log := log c ++ o |}
          end
      end
  end.

Fixpoint exec_all (c : config) (acts : list action) : option config :=
  match acts with
  | [] => Some c
  | act :: rest =>
      match exec c act with
      | Some c' => exec_all c' rest
      | None => None
      end
  end.

(** The configurations that the runs lead to. *)
Inductive reachable : config -> Prop :=
| run_init renderer : reachable (init renderer)
| run_exec c act c' : reachable c -> exec c act = Some c' -> reachable c'.



























End conc.

(** * Properties of the rules engine *)

Module DomainProofs.
Import domain.

Lemma int_wrap_small z : int_min <= z <= int_max -> int_wrap z = z.
Proof.
  unfold int_min, int_max, int_wrap, int_bits. intros H.
  rewrite Z.mod_small; lia.
Qed.

(** The index that [Play] computes lies on the board. *)
Lemma idx_on_board r c :
  0 <= r <= 2 -> 0 <= c <= 2 -> (Z.to_nat (r * 3 + c) < 9)%nat.
Proof. lia. Qed.

Lemma line_is_true b side i j k :
  line_is b side (i, j, k) = true <->
  b !!! i = side /\ b !!! j = side /\ b !!! k = side.
Proof.
  unfold line_is. rewrite !andb_true_iff, !bool_decide_eq_true. tauto.
Qed.

Lemma hasWin_loop_true lns b side :
  hasWin_loop lns b side = true <->
  exists ln, ln ∈ lns /\ line_is b side ln = true.
Proof.
  induction lns as [|ln rest IH]; simpl.
  - split; [discriminate | intros (ln & Hin & _); inversion Hin].
  - destruct (line_is b side ln) eqn:E.
    + split; [intros _; exists ln; split; [left | exact E] | reflexivity].
    + rewrite IH. split.
      * intros (l & Hin & Hl). exists l. split; [right; exact Hin | exact Hl].
      * intros (l & Hin & Hl). inversion Hin; subst; [congruence | eauto].
Qed.

(** [hasWin] says that one of the 8 lines is held by [side]. *)
Lemma hasWin_true b side : hasWin b side = true <-> line_of b side.
Proof.
  unfold hasWin, line_of. rewrite hasWin_loop_true. split.
  - intros ([[i j] k] & Hin & Hl). apply line_is_true in Hl. eauto 10.
  - intros (i & j & k & Hin & Hl). exists (i, j, k).
    split; [exact Hin | apply line_is_true; exact Hl].
Qed.


(** What an accepted call of [Play] went through. *)
Lemma Play_accepted_inv g r c g' :
  Play g r c = (g', None) ->
  let idx := Z.to_nat (r * 3 + c) in
  let board := <[idx := Turn g]> (Board g) in
  let moves := int_wrap (Moves g + 1) in
  Over g = false /\ 0 <= r <= 2 /\ 0 <= c <= 2 /\ Board g !!! idx = Empty /\
  g' = (if hasWin board (Turn g) then mkGame board (Turn g) (Turn g) true moves
        else if moves =? 9 then mkGame board (Turn g) Empty true moves
        else mkGame board (flip (Turn g)) (Winner g) (Over g) moves).
Proof.
  unfold Play. intros H.
  destruct (Over g) eqn:EO; [discriminate|].
  destruct ((r <? 0) || (r >? 2) || (c <? 0) || (c >? 2)) eqn:EB; [discriminate|].
  apply orb_false_elim in EB as [EB Ec2].
  apply orb_false_elim in EB as [EB Ec1].
  apply orb_false_elim in EB as [Er1 Er2].
  case_bool_decide as EC; simpl in H; [|discriminate].
  cbv zeta. repeat split; try lia; try exact EC.
  destruct (hasWin _ _); [congruence|].
  destruct (_ =? 9); congruence.
Qed.

(** A rejected call of [Play] leaves the game as it was. *)
Lemma Play_rejected_same g r c e : snd (Play g r c) = Some e -> fst (Play g r c) = g.
Proof.
  unfold Play.
  destruct (Over g); [reflexivity|].
  destruct ((r <? 0) || (r >? 2) || (c <? 0) || (c >? 2)); [reflexivity|].
  case_bool_decide; simpl; [|reflexivity].
  destruct (hasWin _ _); [discriminate|].
  destruct (_ =? 9); discriminate.
Qed.

(** *** Counting marks *)

Section Counting.
Context (P : Cell -> Prop) `{HP : !forall x, Decision (P x)}.

Lemma filter_length_cons x (b : list Cell) :
  length (filter P (x :: b))
  = ((if decide (P x) then 1 else 0) + length (filter P b))%nat.
Proof. rewrite filter_cons. destruct (decide (P x)); reflexivity. Qed.

(** Overwriting one cell moves the count by the difference of the two
    indicators. *)
Lemma filter_length_insert (b : list Cell) i x y :
  b !! i = Some x ->
  (length (filter P (<[i:=y]> b)) + (if decide (P x) then 1 else 0)
   = length (filter P b) + (if decide (P y) then 1 else 0))%nat.
Proof.
  revert i. induction b as [|z b IH]; intros [|i] Hl; try discriminate.
  - injection Hl as ->. simpl insert. rewrite !filter_length_cons. lia.
  - simpl in Hl. simpl insert. rewrite !filter_length_cons.
    specialize (IH i Hl). lia.
Qed.
End Counting.

Lemma count_insert_same (b : list Cell) i t :
  b !! i = Some Empty -> t <> Empty ->
  count t (<[i:=t]> b) = S (count t b).
Proof.
  intros H Ht. unfold count.
  pose proof (filter_length_insert (fun x => x = t) b i Empty t H) as E.
  simpl in E. destruct (decide (Empty = t)); [congruence|].
  destruct (decide (t = t)); [lia | congruence].
Qed.

Lemma count_insert_other (b : list Cell) i t s :
  b !! i = Some Empty -> s <> t -> s <> Empty ->
  count s (<[i:=t]> b) = count s b.
Proof.
  intros H Hs Hs'. unfold count.
  pose proof (filter_length_insert (fun x => x = s) b i Empty t H) as E.
  simpl in E. destruct (decide (Empty = s)); [congruence|].
  destruct (decide (t = s)); [congruence | lia].
Qed.

Lemma marked_insert (b : list Cell) i t :
  b !! i = Some Empty -> t <> Empty ->
  marked (<[i:=t]> b) = S (marked b).
Proof.
  intros H Ht. unfold marked.
  pose proof (filter_length_insert (fun x => x <> Empty) b i Empty t H) as E.
  simpl in E. destruct (decide (Empty <> Empty)); [congruence|].
  destruct (decide (t <> Empty)); [lia | tauto].
Qed.

Lemma marked_count (b : list Cell) : marked b = (count X b + count O b)%nat.
Proof.
  unfold marked, count. induction b as [|x b IH]; [reflexivity|].
  rewrite !filter_length_cons, IH.
  destruct x; repeat (case_decide; try congruence); lia.
Qed.

Lemma marked_le (b : list Cell) : (marked b <= length b)%nat.
Proof. unfold marked. apply length_filter. Qed.


(** The cell that [Play] found empty is on the board. *)
Lemma empty_cell_lookup (b : list Cell) i :
  (i < length b)%nat -> b !!! i = Empty -> b !! i = Some Empty.
Proof.
  intros Hi HE. destruct (lookup_lt_is_Some_2 b i Hi) as [x Hx].
  rewrite (list_lookup_total_correct _ _ _ Hx) in HE. congruence.
Qed.

(** Placing a mark of [t] on an empty cell changes no line of another seat. *)
Lemma lookup_insert_other_side (b : list Cell) i j t s :
  b !!! i = Empty -> s <> t -> s <> Empty ->
  (<[i:=t]> b) !!! j = s <-> b !!! j = s.
Proof.
  intros HE Hst Hs. destruct (decide (i = j)) as [->|Hne].
  - destruct (decide (j < length b)%nat) as [Hlt|Hge].
    + rewrite list_lookup_total_insert_eq by exact Hlt. split; congruence.
    + rewrite list_insert_ge by lia. tauto.
  - rewrite list_lookup_total_insert_ne by exact Hne. tauto.
Qed.

Lemma hasWin_insert_other (b : list Cell) i t s :
  b !!! i = Empty -> s <> t -> s <> Empty ->
  hasWin (<[i:=t]> b) s = hasWin b s.
Proof.
  intros HE Hst Hs. apply eq_true_iff_eq. rewrite !hasWin_true.
  unfold line_of. setoid_rewrite (lookup_insert_other_side b i _ t s HE Hst Hs).
  tauto.
Qed.


(** *** The invariant of reachable games *)

Lemma New_inv : game_inv New.
Proof.
  split; try reflexivity.
  - left. split; reflexivity.
  - intros _. repeat split.
  - discriminate.
Qed.

Lemma balanced_turn t b : balanced t false b -> t = X \/ t = O.
Proof. intros [[? _]|[? _]]; auto. Qed.

Lemma Play_inv g r c g' :
  game_inv g -> Play g r c = (g', None) -> game_inv g'.
Proof.
  intros [Hb Hm Ht Hop _] HP.
  destruct (Play_accepted_inv _ _ _ _ HP) as (HO & Hr & Hc & HE & Hg').
  set (idx := Z.to_nat (r * 3 + c)) in *.
  specialize (Hop HO) as (HwX & HwO & HW & Hlt).
  rewrite HO in Ht.
  assert (Hidx : (idx < length (Board g))%nat)
    by (rewrite Hb; apply idx_on_board; assumption).
  pose proof (empty_cell_lookup _ _ Hidx HE) as Hl.
  assert (Htne : Turn g <> Empty) by (destruct (balanced_turn _ _ Ht); congruence).
  pose proof (marked_insert _ _ _ Hl Htne) as Hmk.
  assert (Hb' : board_ok (<[idx:=Turn g]> (Board g)))
    by (unfold board_ok; rewrite length_insert; exact Hb).
  assert (Hm' : int_wrap (Moves g + 1)
                = Z.of_nat (marked (<[idx:=Turn g]> (Board g)))).
  { rewrite int_wrap_small by (unfold int_min, int_max, int_bits; lia). lia. }
  assert (Hle : (marked (<[idx:=Turn g]> (Board g)) <= 9)%nat)
    by (rewrite <- Hb'; apply marked_le).
  assert (Hcnt : (Turn g = X /\
                  count X (<[idx:=Turn g]> (Board g)) = S (count X (Board g)) /\
                  count O (<[idx:=Turn g]> (Board g)) = count O (Board g) /\
                  hasWin (<[idx:=Turn g]> (Board g)) O = false) \/
                 (Turn g = O /\
                  count O (<[idx:=Turn g]> (Board g)) = S (count O (Board g)) /\
                  count X (<[idx:=Turn g]> (Board g)) = count X (Board g) /\
                  hasWin (<[idx:=Turn g]> (Board g)) X = false)).
  { destruct (balanced_turn _ _ Ht) as [E|E]; [left|right]; rewrite E in *;
      (split; [reflexivity|]); (split; [apply count_insert_same; done|]);
      (split; [apply count_insert_other; done|]);
      rewrite hasWin_insert_other; done. }
  set (b' := <[idx:=Turn g]> (Board g)) in *. clearbody b'.
  assert (Hno : hasWin b' (Turn g) = false ->
                hasWin b' X = false /\ hasWin b' O = false).
  { intros EW. destruct Hcnt as [(E' & _ & _ & Hw)|(E' & _ & _ & Hw)];
      rewrite E' in EW; split; assumption. }
  assert (Hlast : balanced (Turn g) true b').
  { destruct Ht as [[E Hc0]|[E Hc0]], Hcnt as [(E' & H1 & H2 & _)|(E' & H1 & H2 & _)];
      try congruence; [left | right]; (split; [assumption | lia]). }
  assert (Hnext : balanced (flip (Turn g)) false b').
  { destruct Ht as [[E Hc0]|[E Hc0]], Hcnt as [(E' & H1 & H2 & _)|(E' & H1 & H2 & _)];
      try congruence; rewrite E; [right | left]; (split; [reflexivity | lia]). }
  destruct (hasWin b' (Turn g)) eqn:EW;
    [|destruct (int_wrap (Moves g + 1) =? 9) eqn:E9]; subst g'.
  - split; simpl; try assumption; [discriminate|].
    intros _. left. split; [reflexivity|]. split; [exact EW|].
    destruct Hcnt as [(E' & _ & _ & Hw)|(E' & _ & _ & Hw)]; rewrite E'; exact Hw.
  - apply Z.eqb_eq in E9. destruct (Hno eq_refl) as [HnX HnO].
    split; simpl; try assumption; [discriminate|].
    intros _. right. repeat split; assumption.
  - apply Z.eqb_neq in E9. destruct (Hno eq_refl) as [HnX HnO]. rewrite HO.
    split; simpl; try assumption; [|discriminate].
    intros _. repeat split; try assumption. lia.
Qed.

Lemma game_reachable_inv g : reachable g -> game_inv g.
Proof.
  induction 1 as [|g r c g' _ IH HP]; [apply New_inv | eapply Play_inv; eassumption].
Qed.

Lemma playMoves_reachable moves : forall g g',
  reachable g -> playMoves g moves = Some g' -> reachable g'.
Proof.
  induction moves as [|[r c] rest IH]; intros g g' Hg H; simpl in H.
  - congruence.
  - destruct (Play g r c) as [g1 [e|]] eqn:EP; [discriminate|].
    eapply IH; [|exact H]. eapply reach_Play; eassumption.
Qed.

(** Calls of [Play], accepted or not, do not leave the reachable games. *)
Lemma steps_reachable g g' : reachable g -> steps g g' -> reachable g'.
Proof.
  intros Hg. induction 1 as [|g g1 g2 _ IH (r & c & HS)]; [assumption|].
  specialize (IH Hg). destruct (Play g1 r c) as [g3 [e|]] eqn:EP; simpl in HS; subst g3.
  - pose proof (Play_rejected_same g1 r c e) as Hs. rewrite EP in Hs.
    simpl in Hs. rewrite Hs by reflexivity. assumption.
  - eapply reach_Play; eassumption.
Qed.



(** The four ways a call of [Play] can go. *)
Lemma Play_cases g r c :
  let idx := Z.to_nat (r * 3 + c) in
  let oob := r < 0 \/ r > 2 \/ c < 0 \/ c > 2 in
  (Over g = true /\ Play g r c = (g, Some ErrGameOver))
  \/ (Over g = false /\ oob /\ Play g r c = (g, Some ErrOutOfBounds))
  \/ (Over g = false /\ ~ oob /\ Board g !!! idx <> Empty /\
      Play g r c = (g, Some ErrOccupied))
  \/ (Over g = false /\ ~ oob /\ Board g !!! idx = Empty /\
      exists g', Play g r c = (g', None)).
Proof.
  intros idx oob.
  assert (Hb : ((r <? 0) || (r >? 2) || (c <? 0) || (c >? 2)) = true <-> oob).
  { unfold oob. rewrite !orb_true_iff, !Z.ltb_lt, !Z.gtb_gt. tauto. }
  unfold Play. fold idx.
  destruct (Over g) eqn:EO; [left; auto|]. right.
  destruct ((r <? 0) || (r >? 2) || (c <? 0) || (c >? 2)) eqn:EB.
  { left. repeat split; tauto. }
  assert (Hn : ~ oob) by (rewrite <- Hb; congruence).
  right. case_bool_decide as EC; simpl.
  - right. repeat split; try assumption.
    destruct (hasWin _ _); [eauto|]. destruct (_ =? 9); eauto.
  - left. auto.
Qed.

(** C3.  [Play] returns an error exactly when the game is over, or a
    coordinate is outside 0..2, or the target cell is not empty; the error
    is then [ErrGameOver], [ErrOutOfBounds] or [ErrOccupied] (the first of
    the three that applies) and the game is left as it was.  In every other
    case there is no error.  In particular every call on a finished game
    returns [ErrGameOver] and changes nothing. *)
Theorem rejected_move_unchanged g r c :
  let idx := Z.to_nat (r * 3 + c) in
  let oob := r < 0 \/ r > 2 \/ c < 0 \/ c > 2 in
  let occupied := Board g !!! idx <> Empty in
  (forall e, snd (Play g r c) = Some e -> fst (Play g r c) = g) /\
  (is_Some (snd (Play g r c)) <-> Over g = true \/ oob \/ occupied) /\
  (snd (Play g r c) = None <-> ~ (Over g = true \/ oob \/ occupied)) /\
  (snd (Play g r c) = Some ErrGameOver <-> Over g = true) /\
  (snd (Play g r c) = Some ErrOutOfBounds <-> Over g = false /\ oob) /\
  (snd (Play g r c) = Some ErrOccupied <->
     Over g = false /\ ~ oob /\ occupied) /\
  (Over g = true -> Play g r c = (g, Some ErrGameOver)).
Proof.
  intros idx oob occupied.
  split; [intros e; apply Play_rejected_same|].
  destruct (Play_cases g r c) as
    [(HO & HP) | [(HO & Hb & HP) | [(HO & Hb & Hc & HP) | (HO & Hb & Hc & g' & HP)]]];
    rewrite HP; simpl; fold idx in Hc || idtac; fold oob in Hb || idtac;
    repeat apply conj;
    first [ solve [intros; congruence]
          | solve [intros; tauto]
          | solve [intros; exfalso; tauto]
          | solve [intros (? & ?); congruence]
          | solve [intros (? & ? & ?); congruence]
          | solve [intros _; eexists; reflexivity]
          | solve [intros [? ?]; discriminate]
          | solve [intros H; exfalso; apply H; tauto]
          | solve [unfold occupied; intros [?|[?|?]]; congruence || tauto]
          | idtac ].
  intros _ [?|[?|?]]; [congruence | tauto | unfold occupied in *; tauto].
Qed.

Lemma rejected_move_unchanged_witness :
  Play (mkGame [X; X; X; O; O; Empty; Empty; Empty; Empty] X X true 5) 2 2
  = (mkGame [X; X; X; O; O; Empty; Empty; Empty; Empty] X X true 5,
     Some ErrGameOver).
Proof.
  apply (rejected_move_unchanged
           (mkGame [X; X; X; O; O; Empty; Empty; Empty; Empty] X X true 5) 2 2).
  reflexivity.
Defined.






(** Marks stay where they are across one call of [Play]. *)
Lemma step_keeps_marks g g' i m :
  step g g' -> Board g !! i = Some m -> m <> Empty -> Board g' !! i = Some m.
Proof.
  intros (r & c & HS) Hi Hm.
  destruct (Play g r c) as [g1 [e|]] eqn:EP; simpl in HS; subst g1.
  - pose proof (Play_rejected_same g r c e) as Hs. rewrite EP in Hs.
    simpl in Hs. rewrite Hs by reflexivity. exact Hi.
  - destruct (Play_accepted_inv _ _ _ _ EP) as (_ & _ & _ & HE & Hg').
    assert (HB : Board g' = <[Z.to_nat (r * 3 + c) := Turn g]> (Board g)).
    { subst g'. destruct (hasWin _ _); [reflexivity|].
      destruct (_ =? 9); reflexivity. }
    rewrite HB. destruct (decide (Z.to_nat (r * 3 + c) = i)) as [<-|Hne].
    + rewrite (list_lookup_total_correct _ _ _ Hi) in HE. congruence.
    + rewrite list_lookup_insert_ne by exact Hne. exact Hi.
Qed.

(** C10.  In every game reachable from [New] the move count is the number
    of marked cells; and after any further calls of [Play], accepted or
    rejected, this still holds and every cell that held a mark holds the
    same mark. *)
Theorem moves_count_marks g :
  reachable g ->
  Moves g = Z.of_nat (marked (Board g)) /\
  forall g', steps g g' ->
    Moves g' = Z.of_nat (marked (Board g')) /\
    forall i m, Board g !! i = Some m -> m <> Empty -> Board g' !! i = Some m.
Proof.
  intros Hg. split; [apply game_reachable_inv; exact Hg|].
  intros g' Hs. split.
  - apply game_reachable_inv. eapply steps_reachable; eassumption.
  - clear Hg. induction Hs as [|g g1 g2 _ IH Hst]; [auto|].
    intros i m Hi Hm. eapply step_keeps_marks; eauto.
Qed.

Lemma moves_count_marks_witness :
  exists g, playMoves New [(0, 0); (0, 0); (1, 1)] = None /\
    playMoves New [(0, 0); (1, 1)] = Some g /\
    Moves g = Z.of_nat (marked (Board g)) /\
    forall g', steps g g' -> Board g' !! 4%nat = Some O.
Proof.
  eexists. split; [reflexivity|]. split; [reflexivity|].
  match goal with |- Moves ?g = _ /\ _ =>
    assert (Hg : reachable g)
      by (apply (playMoves_reachable [(0, 0); (1, 1)] New);
          [apply reach_New | reflexivity]);
    destruct (moves_count_marks g Hg) as (HM & Hk)
  end.
  split; [exact HM|].
  intros g' Hs. apply (Hk g' Hs); [reflexivity | discriminate].
Defined.

End DomainProofs.

(** * Properties of the session service *)

Module AppProofs.
Import app.

(** *** The fan-out loop and the registry deletions *)

Lemma try_send_open p sub :
  closed sub = false ->
  try_send p sub = if is_full sub then Full else Sent (deliver p sub).
Proof.
  intros Hc. unfold try_send, deliver, is_full. rewrite Hc.
  case_bool_decide; reflexivity.
Qed.

(** Over a snapshot of distinct open subscribers the loop does not panic;
    it delivers to each of them, and drops the full ones in order. *)
Lemma fanout_spec p (h0 : gmap nat subscriber) :
  forall snap h toDrop tr,
    NoDup snap ->
    (forall a, a ∈ snap -> h !! a = h0 !! a) ->
    (forall a, a ∈ snap -> exists sub, h0 !! a = Some sub /\ closed sub = false) ->
    exists h',
      fanout snap p h toDrop tr
      = Some (h', toDrop ++ filter (fun a => full_at h0 a = true) snap,
              tr ++ (fanout_event h0 <$> snap)) /\
      forall a, h' !! a = if decide (a ∈ snap) then deliver p <$> h0 !! a
                          else h !! a.
Proof.
  induction snap as [|a rest IH]; intros h toDrop tr Hnd Hsame Hopen.
  - exists h. simpl. rewrite !app_nil_r. split; [reflexivity|].
    intros a. destruct (decide (a ∈ [])) as [Hin|_]; [inversion Hin | reflexivity].
  - apply NoDup_cons in Hnd as [Hnotin Hnd].
    destruct (Hopen a) as (sub & Hsub & Hcl); [left|].
    assert (Ha : h !! a = Some sub) by (rewrite Hsame; [exact Hsub | left]).
    simpl fanout. rewrite Ha, (try_send_open p sub Hcl).
    assert (Hfull : full_at h0 a = is_full sub) by (unfold full_at; rewrite Hsub; reflexivity).
    assert (Hd : deliver p sub = if is_full sub then close sub else deliver p sub)
      by (unfold deliver; destruct (is_full sub); reflexivity).
    set (h1 := <[a := deliver p sub]> h).
    assert (Hsame1 : forall b, b ∈ rest -> h1 !! b = h0 !! b).
    { intros b Hb. unfold h1. rewrite lookup_insert_ne by (intros ->; contradiction).
      apply Hsame. right. exact Hb. }
    assert (Hopen1 : forall b, b ∈ rest ->
                     exists sub, h0 !! b = Some sub /\ closed sub = false)
      by (intros b Hb; apply Hopen; right; exact Hb).
    assert (Hlook : forall h' : gmap nat subscriber,
              (forall x, h' !! x = if decide (x ∈ rest) then deliver p <$> h0 !! x
                                   else h1 !! x) ->
              forall x, h' !! x = if decide (x ∈ a :: rest) then deliver p <$> h0 !! x
                                  else h !! x).
    { intros h' Hh' x. rewrite Hh'.
      destruct (decide (x ∈ rest)) as [Hx|Hx].
      - rewrite decide_True by (right; exact Hx). reflexivity.
      - destruct (decide (x = a)) as [->|Hxa].
        + rewrite decide_True by left. unfold h1.
          rewrite lookup_insert_eq, Hsub. reflexivity.
        + rewrite decide_False by (intros Hin; apply elem_of_cons in Hin as [?|?]; tauto).
          unfold h1. rewrite lookup_insert_ne by congruence. reflexivity. }
    rewrite filter_cons, fmap_cons. unfold fanout_event at 1. rewrite Hfull.
    destruct (is_full sub) eqn:EF.
    + rewrite decide_True by reflexivity.
      destruct (IH h1 (toDrop ++ [a]) (tr ++ [EvClose a]) Hnd Hsame1 Hopen1)
        as (h' & Hf & Hh').
      exists h'. split.
      * unfold h1 in Hf. unfold deliver in Hf. rewrite EF in Hf.
        rewrite Hf, <- !app_assoc. reflexivity.
      * apply Hlook. exact Hh'.
    + rewrite decide_False by discriminate.
      destruct (IH h1 toDrop (tr ++ [EvSend a]) Hnd Hsame1 Hopen1)
        as (h' & Hf & Hh').
      exists h'. split.
      * unfold h1 in Hf. rewrite Hf, <- !app_assoc. reflexivity.
      * apply Hlook. exact Hh'.
Qed.

(** The order in which the loop takes the subscribers does not matter for
    the heap it leaves nor for who is dropped. *)
Lemma fanout_any_order p (h : gmap nat subscriber) l1 l2 :
  NoDup l1 -> NoDup l2 -> (forall a, a ∈ l1 <-> a ∈ l2) ->
  (forall a, a ∈ l1 -> exists sub, h !! a = Some sub /\ closed sub = false) ->
  exists h' d1 d2 t1 t2,
    fanout l1 p h [] [] = Some (h', d1, t1) /\
    fanout l2 p h [] [] = Some (h', d2, t2) /\
    forall a, a ∈ d1 <-> a ∈ d2.
Proof.
  intros Hn1 Hn2 Hsame Hopen.
  destruct (fanout_spec p h l1 h [] [] Hn1 (fun _ _ => eq_refl) Hopen)
    as (h1 & Hf1 & Hh1).
  destruct (fanout_spec p h l2 h [] [] Hn2 (fun _ _ => eq_refl))
    as (h2 & Hf2 & Hh2).
  { intros a Ha. apply Hopen, Hsame, Ha. }
  assert (h2 = h1) as ->.
  { apply map_eq. intros a. rewrite Hh1, Hh2.
    destruct (decide (a ∈ l1)) as [H1|H1], (decide (a ∈ l2)) as [H2|H2];
      try reflexivity; exfalso; [apply H2, Hsame, H1 | apply H1, Hsame, H2]. }
  eexists h1, _, _, _, _. split; [exact Hf1|]. split; [exact Hf2|].
  intros a. simpl. rewrite !list_elem_of_filter, Hsame. tauto.
Qed.

Lemma foldl_delete_sub id l : forall m : gmap string (gset nat),
  foldl (delete_sub id) m l
  = match m !! id with
    | Some set => <[id := set ∖ list_to_set l]> m
    | None => m
    end.
Proof.
  induction l as [|a l IH]; intros m; simpl.
  - destruct (m !! id) as [set|] eqn:E; [|reflexivity].
    rewrite difference_empty_L. symmetry. apply insert_id. exact E.
  - rewrite IH. unfold delete_sub.
    destruct (m !! id) as [set|] eqn:E.
    + rewrite lookup_insert_eq, insert_insert_eq. f_equal.
      apply set_eq. intros x.
      rewrite !elem_of_difference, elem_of_union, !elem_of_list_to_set,
        elem_of_singleton. tauto.
    + rewrite E. reflexivity.
Qed.

(** The registry after the deletions. *)
Lemma drop_all_subs id toDrop (m : gmap string (gset nat)) :
  fst (drop_all id toDrop m)
  = match m !! id with
    | Some set => <[id := set ∖ list_to_set toDrop]> m
    | None => m
    end.
Proof.
  destruct toDrop as [|a l];
    [|unfold drop_all; simpl fst; apply (foldl_delete_sub id (a :: l))].
  simpl. destruct (m !! id) as [set|] eqn:E; [|reflexivity].
  rewrite difference_empty_L. symmetry. apply insert_id. exact E.
Qed.

(** What a successful call of [Play] went through. *)
Lemma Play_ok_inv s id playerID r c now res :
  Play s id playerID r c now = Some res -> err res = None ->
  exists gs g' h' toDrop tr,
    games s !! id = Some gs /\
    seat_of gs playerID = Some (domain.Turn (Game gs)) /\
    domain.Play (Game gs) r c = (g', None) /\
    let cp := {| ID := ID gs; Game := g'; X := X gs; O := O gs;
                 Created := Created gs; Updated := now |} in
    fanout (elements (copySubsLocked s id)) (render s cp) (heap s) []
           [EvLock; EvRender cp; EvUnlock] = Some (h', toDrop, tr) /\
    res = mkPlayResult
            {| games := <[id := cp]> (games s);
               subs := fst (drop_all id toDrop (subs s));
               heap := h'; render := render s |}
            (Some cp) None (tr ++ snd (drop_all id toDrop (subs s))).
Proof.
  unfold Play.
  destruct (games s !! id) as [gs|] eqn:EG; [|intros [= <-]; discriminate].
  destruct (seat_of gs playerID) as [seat|] eqn:ES; [|intros [= <-]; discriminate].
  case_bool_decide as Hseat; simpl; [|intros [= <-]; discriminate].
  destruct (domain.Play (Game gs) r c) as [g' [e'|]] eqn:EP;
    [intros [= <-]; discriminate|].
  destruct (fanout _ _ _ _ _) as [[[h' toDrop] tr]|] eqn:EF; [|discriminate].
  destruct (drop_all id toDrop (subs s)) as [subs' tr2] eqn:ED.
  intros [= <-] _. subst seat. exists gs, g', h', toDrop, tr.
  split; [reflexivity|]. split; [exact ES|]. split; [exact EP|].
  cbv zeta. split; [exact EF|].
  rewrite ED. reflexivity.
Qed.

(** A call of [Play] that fails returns the service as it was. *)
Lemma Play_failed_same s id playerID r c now res e :
  Play s id playerID r c now = Some res -> err res = Some e ->
  after res = s /\ result res = None.
Proof.
  unfold Play.
  destruct (games s !! id) as [gs|]; [|intros [= <-]; simpl; auto].
  destruct (seat_of gs playerID) as [seat|]; [|intros [= <-]; simpl; auto].
  case_bool_decide; simpl; [|intros [= <-]; simpl; auto].
  destruct (domain.Play (Game gs) r c) as [g' [e'|]];
    [intros [= <-]; simpl; auto|].
  destruct (fanout _ _ _ _ _) as [[[h' toDrop] tr]|]; [|discriminate].
  destruct (drop_all _ _ _). intros [= <-]. simpl. discriminate.
Qed.

(** A subscriber in the snapshot is registered. *)
Lemma copySubsLocked_elem s id a :
  a ∈ copySubsLocked s id <-> exists set, subs s !! id = Some set /\ a ∈ set.
Proof.
  unfold copySubsLocked. destruct (subs s !! id) as [set|].
  - split; [eauto | intros (set' & [= <-] & H); exact H].
  - split; [intros H; exfalso; revert H; apply not_elem_of_empty
           | intros (? & ? & _); discriminate].
Qed.

(** The fan-out of [Play] on a service that satisfies the invariant. *)
Lemma fanout_registered s hs id p tr :
  service_inv s hs ->
  exists h',
    fanout (elements (copySubsLocked s id)) p (heap s) [] tr
    = Some (h',
            filter (fun a => full_at (heap s) a = true)
                   (elements (copySubsLocked s id)),
            tr ++ (fanout_event (heap s) <$> elements (copySubsLocked s id))) /\
    forall a, h' !! a = if decide (a ∈ copySubsLocked s id)
                        then deliver p <$> heap s !! a
                        else heap s !! a.
Proof.
  intros Hinv.
  destruct (fanout_spec p (heap s) (elements (copySubsLocked s id)) (heap s) [] tr)
    as (h' & Hf & Hh').
  - apply NoDup_elements.
  - reflexivity.
  - intros a Ha. apply elem_of_elements, copySubsLocked_elem in Ha as (set & Hs & Ha).
    apply (inv_registered s hs Hinv id set a Hs Ha).
  - exists h'. split; [exact Hf|].
    intros a. rewrite Hh'.
    destruct (decide (a ∈ elements (copySubsLocked s id))) as [Hin|Hnin];
      [rewrite decide_True by (apply elem_of_elements; exact Hin)
      |rewrite decide_False by (rewrite <- elem_of_elements; exact Hnin)];
      reflexivity.
Qed.


(** The service after a successful call of [Play]. *)
Lemma Play_ok_spec s hs id playerID r c now res :
  service_inv s hs ->
  Play s id playerID r c now = Some res -> err res = None ->
  exists gs g',
    games s !! id = Some gs /\
    seat_of gs playerID = Some (domain.Turn (Game gs)) /\
    domain.Play (Game gs) r c = (g', None) /\
    let cp := {| ID := ID gs; Game := g'; X := X gs; O := O gs;
                 Created := Created gs; Updated := now |} in
    let full := filter (fun a => full_at (heap s) a = true)
                       (elements (copySubsLocked s id)) in
    result res = Some cp /\
    games (after res) = <[id := cp]> (games s) /\
    render (after res) = render s /\
    (forall a, heap (after res) !! a
               = if decide (a ∈ copySubsLocked s id)
                 then deliver (render s cp) <$> heap s !! a
                 else heap s !! a) /\
    subs (after res)
    = match subs s !! id with
      | Some set => <[id := set ∖ list_to_set full]> (subs s)
      | None => subs s
      end /\
    trace res
    = [EvLock; EvRender cp; EvUnlock]
      ++ (fanout_event (heap s) <$> elements (copySubsLocked s id))
      ++ snd (drop_all id full (subs s)).
Proof.
  intros Hinv HP He.
  destruct (Play_ok_inv _ _ _ _ _ _ _ HP He)
    as (gs & g' & h' & toDrop & tr & EG & ES & EP & EF & ->).
  exists gs, g'. do 3 (split; [assumption|]). cbv zeta.
  edestruct (fanout_registered s hs id) as (h2 & Hf & Hh2); [exact Hinv|].
  rewrite Hf in EF. injection EF as <- <- <-. simpl.
  split; [reflexivity|]. split; [reflexivity|]. split; [reflexivity|].
  split; [exact Hh2|]. split; [apply drop_all_subs|]. reflexivity.
Qed.

(** Who is registered for [id] after a successful call of [Play]: the
    subscribers of the snapshot that were not full. *)
Lemma Play_ok_registered s hs id playerID r c now res a :
  service_inv s hs ->
  Play s id playerID r c now = Some res -> err res = None ->
  a ∈ copySubsLocked (after res) id <->
  a ∈ copySubsLocked s id /\ full_at (heap s) a = false.
Proof.
  intros Hinv HP He.
  destruct (Play_ok_spec _ _ _ _ _ _ _ _ Hinv HP He)
    as (gs & g' & _ & _ & _ & _ & _ & _ & _ & Hsubs & _).
  rewrite !copySubsLocked_elem, Hsubs.
  destruct (subs s !! id) as [set|] eqn:E.
  - rewrite lookup_insert_eq. split.
    + intros (set' & [= <-] & Ha).
      apply elem_of_difference in Ha as [Ha Hn].
      split; [eauto|]. destruct (full_at (heap s) a) eqn:EF; [|reflexivity].
      exfalso. apply Hn. apply elem_of_list_to_set, list_elem_of_filter.
      split; [exact EF|]. apply elem_of_elements. unfold copySubsLocked.
      rewrite E. exact Ha.
    + intros ((set' & [= <-] & Ha) & Hnf). eexists. split; [reflexivity|].
      apply elem_of_difference. split; [exact Ha|].
      rewrite elem_of_list_to_set, list_elem_of_filter. intros [Hf _]. congruence.
  - rewrite E. split; [intros (? & ? & _) | intros [(? & ? & _) _]]; discriminate.
Qed.

(** *** The invariant of reachable services *)

Lemma inv_New renderer : service_inv (NewServiceWithRenderer renderer) ∅.
Proof.
  split; simpl.
  - intros id set a H. rewrite lookup_empty in H. discriminate.
  - intros id a H. exfalso. revert H. apply not_elem_of_empty.
  - intros a sub H. rewrite lookup_empty in H. discriminate.
  - intros id gs H. rewrite lookup_empty in H. discriminate.
Qed.

(** Methods that touch the games only. *)
Lemma inv_games s hs (games' : gmap string GameState) f :
  service_inv s hs ->
  (forall id gs, games' !! id = Some gs ->
     O gs <> EmptyString -> X gs <> EmptyString) ->
  service_inv {| games := games'; subs := subs s; heap := heap s; render := f |} hs.
Proof. intros [H1 H2 H3 H4] Hg. split; simpl; assumption. Qed.

Lemma seat_join_seats gs playerID :
  (O gs <> EmptyString -> X gs <> EmptyString) ->
  O (fst (seat_join gs playerID)) <> EmptyString ->
  X (fst (seat_join gs playerID)) <> EmptyString.
Proof.
  unfold seat_join. intros H.
  destruct (bool_decide (X gs = EmptyString)) eqn:E1; simpl.
  - apply bool_decide_eq_true in E1. intros HO. specialize (H HO). contradiction.
  - apply bool_decide_eq_false in E1.
    destruct (bool_decide (X gs = playerID)) eqn:E2; simpl.
    + apply bool_decide_eq_true in E2. intros _. congruence.
    + destruct (bool_decide (O gs = EmptyString) || bool_decide (O gs = playerID));
        simpl; intros _; exact E1.
Qed.

Lemma inv_Join s hs id playerID now :
  service_inv s hs -> service_inv (fst (Join s id playerID now)) hs.
Proof.
  intros Hinv. unfold Join.
  destruct (games s !! id) as [gs|] eqn:EG; [|exact Hinv].
  destruct (seat_join gs playerID) as [gs1 side] eqn:EJ. simpl.
  apply inv_games; [exact Hinv|].
  intros id' gs' Hl. destruct (decide (id = id')) as [<-|Hne].
  - rewrite lookup_insert_eq in Hl. injection Hl as <-. simpl.
    pose proof (seat_join_seats gs playerID (inv_seats s hs Hinv id gs EG)) as Hs.
    rewrite EJ in Hs. exact Hs.
  - rewrite lookup_insert_ne in Hl by exact Hne.
    exact (inv_seats s hs Hinv id' gs' Hl).
Qed.

Lemma inv_CreateGame s hs id now :
  service_inv s hs -> service_inv (fst (CreateGame s id now)) hs.
Proof.
  intros Hinv. unfold CreateGame. simpl. apply inv_games; [exact Hinv|].
  intros id' gs' Hl. destruct (decide (id = id')) as [<-|Hne].
  - rewrite lookup_insert_eq in Hl. injection Hl as <-. simpl. congruence.
  - rewrite lookup_insert_ne in Hl by exact Hne.
    exact (inv_seats s hs Hinv id' gs' Hl).
Qed.

Lemma fresh_not_allocated (h : gmap nat subscriber) : h !! fresh (dom h) = None.
Proof. apply not_elem_of_dom. apply is_fresh. Qed.

Lemma inv_Subscribe s hs id now1 now2 :
  service_inv s hs ->
  service_inv (fst (Subscribe s id now1 now2))
              ({[ (id, snd (Subscribe s id now1 now2)) ]} ∪ hs).
Proof.
  intros Hinv. unfold Subscribe. simpl.
  set (a := fresh (dom (heap s))).
  assert (Ha : heap s !! a = None) by apply fresh_not_allocated.
  assert (Hnew : forall id', (id', a) ∉ hs).
  { intros id' Hin. destruct (inv_handle s hs Hinv id' a Hin) as [[sub Hs] _].
    congruence. }
  split; simpl.
  - intros id0 set0 b Hl Hb.
    assert (Hold : forall set, subs s !! id0 = Some set -> b ∈ set ->
              (id0, b) ∈ ({[(id, a)]} ∪ hs : gset (string * nat)) /\
              exists sub, <[a:={| ch := []; closed := false |}]> (heap s) !! b
                          = Some sub /\ closed sub = false).
    { intros set Hs Hbs.
      destruct (inv_registered s hs Hinv id0 set b Hs Hbs) as (Hh & sub & Hsub & Hc).
      split; [apply elem_of_union; right; exact Hh|].
      exists sub. split; [|exact Hc].
      rewrite lookup_insert_ne by congruence. exact Hsub. }
    destruct (decide (id = id0)) as [<-|Hne].
    + rewrite lookup_insert_eq in Hl. injection Hl as <-.
      apply elem_of_union in Hb as [Hb|Hb].
      * destruct (subs s !! id) as [set|] eqn:ES;
          [eapply Hold; eauto | exfalso; revert Hb; apply not_elem_of_empty].
      * apply elem_of_singleton in Hb as ->.
        split; [apply elem_of_union; left; apply elem_of_singleton; reflexivity|].
        eexists. rewrite lookup_insert_eq. split; reflexivity.
    + rewrite lookup_insert_ne in Hl by exact Hne. eapply Hold; eauto.
  - intros id0 b Hin. apply elem_of_union in Hin as [Hin|Hin].
    + apply elem_of_singleton in Hin. injection Hin as -> ->.
      split; [rewrite lookup_insert_eq; eauto|].
      intros id' Hin'. apply elem_of_union in Hin' as [Hin'|Hin'].
      * apply elem_of_singleton in Hin'. congruence.
      * exfalso. exact (Hnew id' Hin').
    + destruct (inv_handle s hs Hinv id0 b Hin) as [[sub Hs] Hu].
      split.
      * rewrite lookup_insert_ne by congruence. eauto.
      * intros id' Hin'. apply elem_of_union in Hin' as [Hin'|Hin'].
        -- apply elem_of_singleton in Hin'. injection Hin' as -> ->. congruence.
        -- apply Hu. exact Hin'.
  - intros b sub Hl. destruct (decide (a = b)) as [<-|Hne].
    + rewrite lookup_insert_eq in Hl. injection Hl as <-. simpl. unfold ch_cap. lia.
    + rewrite lookup_insert_ne in Hl by exact Hne.
      exact (inv_cap s hs Hinv b sub Hl).
  - intros id0 gs Hl. destruct (games s !! id) as [gs0|] eqn:EG.
    + exact (inv_seats s hs Hinv id0 gs Hl).
    + destruct (decide (id = id0)) as [<-|Hne].
      * rewrite lookup_insert_eq in Hl. injection Hl as <-. simpl. congruence.
      * rewrite lookup_insert_ne in Hl by exact Hne.
        exact (inv_seats s hs Hinv id0 gs Hl).
Qed.

Lemma close_ch sub : ch (close sub) = ch sub.
Proof. unfold close. destruct (closed sub); reflexivity. Qed.

Lemma inv_unsub s hs id a :
  service_inv s hs -> (id, a) ∈ hs -> service_inv (unsub s id a) hs.
Proof.
  intros Hinv Hh. unfold unsub. split; simpl.
  - intros id0 set0 b Hl Hb.
    assert (Hold : forall set, subs s !! id0 = Some set -> b ∈ set -> b <> a ->
              (id0, b) ∈ hs /\
              exists sub, alter close a (heap s) !! b = Some sub /\ closed sub = false).
    { intros set Hs Hbs Hne.
      destruct (inv_registered s hs Hinv id0 set b Hs Hbs) as (Hh' & sub & Hsub & Hc).
      split; [exact Hh'|]. exists sub. split; [|exact Hc].
      rewrite lookup_alter_ne by congruence. exact Hsub. }
    unfold delete_sub in Hl. destruct (subs s !! id) as [set|] eqn:ES.
    + destruct (decide (id = id0)) as [<-|Hne].
      * rewrite lookup_insert_eq in Hl. injection Hl as <-.
        apply elem_of_difference in Hb as [Hb Hn].
        apply (Hold set ES Hb). intros ->. apply Hn, elem_of_singleton. reflexivity.
      * rewrite lookup_insert_ne in Hl by exact Hne.
        apply (Hold set0 Hl Hb). intros ->.
        destruct (inv_registered s hs Hinv id0 set0 a Hl Hb) as (Hh' & _).
        destruct (inv_handle s hs Hinv id a Hh) as [_ Hu].
        apply Hne. symmetry. apply Hu. exact Hh'.
    + apply (Hold set0 Hl Hb). intros ->.
      destruct (inv_registered s hs Hinv id0 set0 a Hl Hb) as (Hh' & _).
      destruct (inv_handle s hs Hinv id a Hh) as [_ Hu].
      rewrite (Hu id0 Hh') in Hl. congruence.
  - intros id0 b Hin. destruct (inv_handle s hs Hinv id0 b Hin) as [[sub Hs] Hu].
    split; [|exact Hu]. rewrite lookup_alter.
    case_decide; subst; rewrite Hs; simpl; eauto.
  - intros b sub Hl. rewrite lookup_alter in Hl. case_decide as Hab.
    + subst b. destruct (heap s !! a) as [sub0|] eqn:E; [|discriminate].
      injection Hl as <-. rewrite close_ch. exact (inv_cap s hs Hinv a sub0 E).
    + exact (inv_cap s hs Hinv b sub Hl).
  - exact (inv_seats s hs Hinv).
Qed.

Lemma inv_recv s hs a : service_inv s hs -> service_inv (fst (recv s a)) hs.
Proof.
  intros Hinv. unfold recv.
  destruct (heap s !! a) as [sub|] eqn:E; [|exact Hinv].
  destruct (ch sub) as [|p rest] eqn:EC; [exact Hinv|]. simpl.
  split; simpl.
  - intros id0 set0 b Hl Hb.
    destruct (inv_registered s hs Hinv id0 set0 b Hl Hb) as (Hh & sub' & Hsub & Hc).
    split; [exact Hh|]. destruct (decide (a = b)) as [<-|Hne].
    + rewrite lookup_insert_eq. eexists. split; [reflexivity|]. simpl. congruence.
    + rewrite lookup_insert_ne by exact Hne. eauto.
  - intros id0 b Hin. destruct (inv_handle s hs Hinv id0 b Hin) as [[sub' Hs] Hu].
    split; [|exact Hu]. destruct (decide (a = b)) as [<-|Hne].
    + rewrite lookup_insert_eq. eauto.
    + rewrite lookup_insert_ne by exact Hne. eauto.
  - intros b sub' Hl. destruct (decide (a = b)) as [<-|Hne].
    + rewrite lookup_insert_eq in Hl. injection Hl as <-. simpl.
      pose proof (inv_cap s hs Hinv a sub E) as Hc. rewrite EC in Hc. simpl in Hc. lia.
    + rewrite lookup_insert_ne in Hl by exact Hne. exact (inv_cap s hs Hinv b sub' Hl).
  - exact (inv_seats s hs Hinv).
Qed.

Lemma deliver_cap p sub :
  (length (ch sub) <= ch_cap)%nat -> (length (ch (deliver p sub)) <= ch_cap)%nat.
Proof.
  intros H. unfold deliver, is_full. case_bool_decide; simpl.
  - rewrite length_app. simpl. lia.
  - rewrite close_ch. exact H.
Qed.

Lemma deliver_open p sub :
  closed sub = false -> is_full sub = false -> closed (deliver p sub) = false.
Proof. intros Hc Hf. unfold deliver. rewrite Hf. exact Hc. Qed.

Lemma inv_Play s hs id playerID r c now res :
  service_inv s hs -> Play s id playerID r c now = Some res ->
  service_inv (after res) hs.
Proof.
  intros Hinv HP. destruct (err res) as [e|] eqn:He.
  { destruct (Play_failed_same _ _ _ _ _ _ _ _ HP He) as [-> _]. exact Hinv. }
  pose proof (Play_ok_registered s hs id playerID r c now res) as Hreg.
  destruct (Play_ok_spec _ _ _ _ _ _ _ _ Hinv HP He)
    as (gs & g' & EG & _ & _ & _ & Hgames & _ & Hheap & Hsubs & _).
  split.
  - intros id0 set0 b Hl Hb.
    assert (Hbefore : exists set, subs s !! id0 = Some set /\ b ∈ set).
    { rewrite Hsubs in Hl. destruct (subs s !! id) as [set|] eqn:ES; [|eauto].
      destruct (decide (id = id0)) as [<-|Hne].
      - rewrite lookup_insert_eq in Hl. injection Hl as <-.
        apply elem_of_difference in Hb as [Hb _]. eauto.
      - rewrite lookup_insert_ne in Hl by exact Hne. eauto. }
    destruct Hbefore as (set & Hs & Hbs).
    destruct (inv_registered s hs Hinv id0 set b Hs Hbs) as (Hh & sub & Hsub & Hc).
    split; [exact Hh|]. rewrite Hheap.
    destruct (decide (b ∈ copySubsLocked s id)) as [Hin|Hnin].
    + rewrite Hsub. simpl. eexists. split; [reflexivity|].
      apply deliver_open; [exact Hc|].
      assert (id0 = id) as ->.
      { apply copySubsLocked_elem in Hin as (set' & Hs' & Hb').
        destruct (inv_registered s hs Hinv id set' b Hs' Hb') as (Hh' & _).
        destruct (inv_handle s hs Hinv id b Hh') as [_ Hu]. apply Hu. exact Hh. }
      assert (Hafter : b ∈ copySubsLocked (after res) id)
        by (apply copySubsLocked_elem; eauto).
      apply (Hreg b Hinv HP He) in Hafter as [_ Hnf].
      unfold full_at in Hnf. rewrite Hsub in Hnf. exact Hnf.
    + eauto.
  - intros id0 b Hin. destruct (inv_handle s hs Hinv id0 b Hin) as [[sub Hs] Hu].
    split; [|exact Hu]. rewrite Hheap, Hs. case_decide; simpl; eauto.
  - intros b sub Hl. rewrite Hheap in Hl.
    destruct (heap s !! b) as [sub0|] eqn:E; [|case_decide; discriminate].
    pose proof (inv_cap s hs Hinv b sub0 E) as Hc.
    case_decide; simpl in Hl; injection Hl as <-; [apply deliver_cap|]; exact Hc.
  - intros id0 gs0 Hl. rewrite Hgames in Hl.
    destruct (decide (id = id0)) as [<-|Hne].
    + rewrite lookup_insert_eq in Hl. injection Hl as <-. simpl.
      exact (inv_seats s hs Hinv id gs EG).
    + rewrite lookup_insert_ne in Hl by exact Hne.
      exact (inv_seats s hs Hinv id0 gs0 Hl).
Qed.

Lemma service_reachable_inv s hs : reachable s hs -> service_inv s hs.
Proof.
  induction 1.
  - apply inv_New.
  - unfold SetRenderer. apply inv_games; [assumption|]. apply inv_seats with hs.
    assumption.
  - apply inv_CreateGame; assumption.
  - apply inv_Join; assumption.
  - eapply inv_Play; eassumption.
  - apply inv_Subscribe; assumption.
  - apply inv_unsub; assumption.
  - apply inv_recv; assumption.
Qed.

(** *** [Play]: the ways it fails *)

(** C4.  [Play] on the service fails with [ErrNotFound] when the id is not
    registered, with [ErrNotAPlayer] when the identity holds neither seat,
    with [ErrNotYourTurn] when its seat is not the one to move; otherwise
    the move goes to the rules engine, whose error is returned as it is when
    it rejects the move and whose game is stored when it accepts.  A call
    that fails returns the service as it was: games, seats, timestamps,
    registry and subscribers. *)
Theorem Play_fails s id playerID r c now :
  (games s !! id = None ->
     Play s id playerID r c now
     = Some (mkPlayResult s None (Some ErrNotFound) [EvLock; EvUnlock])) /\
  (forall gs, games s !! id = Some gs ->
     (X gs <> playerID /\ O gs <> playerID ->
        Play s id playerID r c now
        = Some (mkPlayResult s None (Some ErrNotAPlayer) [EvLock; EvUnlock])) /\
     (forall seat, seat_of gs playerID = Some seat ->
        (seat = domain.X /\ X gs = playerID \/
         seat = domain.O /\ O gs = playerID) /\
        (seat <> domain.Turn (Game gs) ->
           Play s id playerID r c now
           = Some (mkPlayResult s None (Some ErrNotYourTurn) [EvLock; EvUnlock])) /\
        (seat = domain.Turn (Game gs) ->
           (forall e, snd (domain.Play (Game gs) r c) = Some e ->
              Play s id playerID r c now
              = Some (mkPlayResult s None (Some (ErrDomain e)) [EvLock; EvUnlock])) /\
           (forall g' res, domain.Play (Game gs) r c = (g', None) ->
              Play s id playerID r c now = Some res ->
              err res = None /\
              result res = Some {| ID := ID gs; Game := g'; X := X gs; O := O gs;
                                   Created := Created gs; Updated := now |} /\
              games (after res) !! id = result res)))) /\
  (forall res e, Play s id playerID r c now = Some res -> err res = Some e ->
     after res = s /\ result res = None).
Proof.
  unfold Play. split; [|split].
  - intros ->. reflexivity.
  - intros gs ->. split.
    + intros [HX HO]. unfold seat_of.
      rewrite !bool_decide_eq_false_2 by assumption. reflexivity.
    + intros seat Hseat. rewrite Hseat. split; [|split].
      * unfold seat_of in Hseat. repeat case_bool_decide; naive_solver.
      * intros Hne. rewrite bool_decide_eq_false_2 by assumption. reflexivity.
      * intros Heq. rewrite bool_decide_eq_true_2 by assumption. simpl. split.
        -- intros e He.
           destruct (domain.Play (Game gs) r c) as [g' [e'|]]; simpl in He;
             [injection He as ->; reflexivity | discriminate].
        -- intros g' res ->.
           destruct (fanout _ _ _ _ _) as [[[h' toDrop] tr]|]; [|discriminate].
           destruct (drop_all _ _ _). intros [= <-]. simpl.
           split; [reflexivity|]. split; [reflexivity|]. apply lookup_insert_eq.
  - intros res e. apply Play_failed_same.
Qed.

Lemma Play_fails_witness :
  let s := fst (Join (fst (Join (fst (CreateGame NewService "g" 1))
                             "g" "p1" 2)) "g" "p2" 3) in
  exists res, Play s "g" "p2" 0 0 4 = Some res /\
    err res = Some ErrNotYourTurn /\ after res = s.
Proof.
  intros s. eexists. split; [vm_compute; reflexivity|].
  split; [reflexivity|].
  eapply (Play_fails s "g" "p2" 0 0 4); [vm_compute|]; reflexivity.
Defined.

(** *** [Join] *)

Lemma with_seats_same gs : with_seats gs (X gs) (O gs) = gs.
Proof. destruct gs; reflexivity. Qed.

(** The three branches of the seat assignment. *)
Lemma seat_join_cases gs playerID :
  ((X gs = EmptyString \/ X gs = playerID) /\
   seat_join gs playerID = (with_seats gs playerID (O gs), domain.X))
  \/ (X gs <> EmptyString /\ X gs <> playerID /\
      (O gs = EmptyString \/ O gs = playerID) /\
      seat_join gs playerID = (with_seats gs (X gs) playerID, domain.O))
  \/ (X gs <> EmptyString /\ X gs <> playerID /\
      O gs <> EmptyString /\ O gs <> playerID /\
      seat_join gs playerID = (gs, domain.Empty)).
Proof.
  unfold seat_join.
  destruct (bool_decide (X gs = EmptyString)) eqn:E1;
    [apply bool_decide_eq_true in E1; left; auto|].
  destruct (bool_decide (X gs = playerID)) eqn:E2;
    [apply bool_decide_eq_true in E2; left; auto|].
  apply bool_decide_eq_false in E1, E2. right. simpl.
  destruct (bool_decide (O gs = EmptyString)) eqn:E3;
    [apply bool_decide_eq_true in E3; left; auto|].
  destruct (bool_decide (O gs = playerID)) eqn:E4;
    [apply bool_decide_eq_true in E4; left; auto|].
  apply bool_decide_eq_false in E3, E4. right. auto.
Qed.

Lemma Join_registered s id playerID now gs :
  games s !! id = Some gs ->
  Join s id playerID now
  = ({| games := <[id := touch (fst (seat_join gs playerID)) now]> (games s);
        subs := subs s; heap := heap s; render := render s |},
     (snd (seat_join gs playerID),
      Some (touch (fst (seat_join gs playerID)) now), None)).
Proof.
  intros EG. unfold Join. rewrite EG.
  destruct (seat_join gs playerID); reflexivity.
Qed.

(** Joins of spectators leave the seats of the game as they are. *)
Lemma spectator_joins_seats id s s' :
  spectator_joins id s s' ->
  forall gs, games s !! id = Some gs ->
  exists gs', games s' !! id = Some gs' /\ X gs' = X gs /\ O gs' = O gs.
Proof.
  induction 1 as [s|s s1 s2 q now gsr _ IH HJ]; intros gs EG; [eauto|].
  destruct (IH gs EG) as (gs1 & EG1 & HX & HO).
  rewrite (Join_registered s1 id q now gs1 EG1) in HJ.
  injection HJ as <- Hside _.
  destruct (seat_join_cases gs1 q) as [(_ & E)|[(_ & _ & _ & E)|(_ & _ & _ & _ & E)]];
    rewrite E in Hside; try discriminate.
  simpl. rewrite lookup_insert_eq, E. eexists. split; [reflexivity|].
  simpl. auto.
Qed.

(** C5.  [Join] on a registered session of a reachable service: an
    identity that holds a seat gets that seat back and the seats stay as
    they are; one that holds none takes the first seat if it is empty, else
    the second if it is empty, else gets [domain.Empty] and no error.  In
    each case [Updated] becomes the time of the call and nothing else in
    the session changes.  An identity that got a seat gets the same seat
    again after any number of joins of spectators.  [Join] fails only with
    [ErrNotFound], and only on an id that is not registered. *)
Theorem Join_seats s hs id playerID now :
  reachable s hs ->
  (games s !! id = None ->
     Join s id playerID now = (s, (domain.Empty, None, Some ErrNotFound))) /\
  (forall gs, games s !! id = Some gs ->
     exists side gs',
       Join s id playerID now
       = ({| games := <[id := gs']> (games s); subs := subs s; heap := heap s;
             render := render s |}, (side, Some gs', None)) /\
       Updated gs' = now /\ ID gs' = ID gs /\ Game gs' = Game gs /\
       Created gs' = Created gs /\
       (X gs = playerID \/ O gs = playerID ->
          X gs' = X gs /\ O gs' = O gs /\
          (side = domain.X /\ X gs = playerID \/
           side = domain.O /\ O gs = playerID)) /\
       (X gs <> playerID -> O gs <> playerID ->
          (X gs = EmptyString ->
             side = domain.X /\ X gs' = playerID /\ O gs' = O gs) /\
          (X gs <> EmptyString -> O gs = EmptyString ->
             side = domain.O /\ X gs' = X gs /\ O gs' = playerID) /\
          (X gs <> EmptyString -> O gs <> EmptyString ->
             side = domain.Empty /\ X gs' = X gs /\ O gs' = O gs))) /\
  (forall s1 side gs1 s2 now',
     Join s id playerID now = (s1, (side, Some gs1, None)) ->
     side <> domain.Empty -> spectator_joins id s1 s2 ->
     exists s3 gs3,
       Join s2 id playerID now' = (s3, (side, Some gs3, None)) /\
       X gs3 = X gs1 /\ O gs3 = O gs1) /\
  (forall e, snd (snd (Join s id playerID now)) = Some e ->
     e = ErrNotFound /\ games s !! id = None).
Proof.
  intros Hreach. pose proof (service_reachable_inv s hs Hreach) as Hinv.
  split; [|split; [|split]].
  - intros EG. unfold Join. rewrite EG. reflexivity.
  - intros gs EG. rewrite (Join_registered s id playerID now gs EG).
    pose proof (inv_seats s hs Hinv id gs EG) as Hseats.
    exists (snd (seat_join gs playerID)), (touch (fst (seat_join gs playerID)) now).
    split; [reflexivity|].
    destruct (seat_join_cases gs playerID)
      as [(H1 & E)|[(H1 & H2 & H3 & E)|(H1 & H2 & H3 & H4 & E)]];
      rewrite E; simpl; do 4 (split; [reflexivity|]).
    + assert (HK : O gs = playerID -> X gs = playerID).
      { intros HO. destruct H1 as [H1|H1]; [|exact H1].
        destruct (decide (playerID = EmptyString)) as [Hp|Hp]; [congruence|].
        exfalso. apply Hseats; congruence. }
      split; [intros [?|?]; intuition congruence|].
      intros; intuition congruence.
    + split; [intros [?|?]; intuition congruence|].
      intros; intuition congruence.
    + split; [intros [?|?]; intuition congruence|].
      intros; intuition congruence.
  - intros s1 side gs1 s2 now' HJ Hside Hspec.
    destruct (games s !! id) as [gs|] eqn:EG;
      [|unfold Join in HJ; rewrite EG in HJ; discriminate].
    rewrite (Join_registered s id playerID now gs EG) in HJ.
    injection HJ as <- <- <-.
    destruct (spectator_joins_seats id _ s2 Hspec
                (touch (fst (seat_join gs playerID)) now))
      as (gs2 & EG2 & HX & HO); [simpl; apply lookup_insert_eq|].
    rewrite (Join_registered s2 id playerID now' gs2 EG2).
    eexists _, _.
    assert (Hagain : seat_join gs2 playerID = (gs2, snd (seat_join gs playerID))).
    { simpl in HX, HO.
      destruct (seat_join_cases gs playerID)
        as [(H1 & E)|[(H1 & H2 & H3 & E)|(H1 & H2 & H3 & H4 & E)]];
        rewrite E in *; simpl in *; [| |contradiction].
      - destruct (seat_join_cases gs2 playerID)
          as [(_ & E2)|[(_ & ? & _)|(_ & ? & _)]]; [|congruence|congruence].
        rewrite E2, <- HX. f_equal. apply with_seats_same.
      - destruct (seat_join_cases gs2 playerID)
          as [([?|?] & _)|[(_ & _ & _ & E2)|(_ & _ & _ & ? & _)]];
          [congruence|congruence| |congruence].
        rewrite E2, <- HO. f_equal. apply with_seats_same. }
    rewrite Hagain. split; [reflexivity|]. simpl. auto.
  - intros e. unfold Join. destruct (games s !! id) as [gs|] eqn:EG.
    + destruct (seat_join gs playerID). simpl. discriminate.
    + simpl. intros [= <-]. auto.
Qed.

Lemma Join_seats_witness :
  let s0 := fst (Join (fst (CreateGame NewService "g" 1)) "g" "p1" 2) in
  let s1 := fst (Join s0 "g" "p2" 3) in
  let s3 := fst (Join (fst (Join s1 "g" "p3" 4)) "g" "p4" 5) in
  fst (fst (snd (Join s0 "g" "p2" 3))) = domain.O /\
  fst (fst (snd (Join s1 "g" "p3" 4))) = domain.Empty /\
  fst (fst (snd (Join s3 "g" "p2" 6))) = domain.O.
Proof.
  intros s0 s1 s3.
  assert (Hreach : reachable s0 ∅)
    by (apply run_Join, run_CreateGame, (run_New (Some nil_renderer))).
  assert (Hspec : spectator_joins "g" s1 s3).
  { eapply (spectators_more "g" s1 (fst (Join s1 "g" "p3" 4)) s3 "p4" 5);
      [eapply (spectators_more "g" s1 s1 _ "p3" 4); [apply spectators_none|]|];
      vm_compute; reflexivity. }
  destruct (Join_seats s0 ∅ "g" "p2" 3 Hreach) as (_ & _ & Hre & _).
  destruct (Hre s1 domain.O _ s3 6 eq_refl ltac:(discriminate) Hspec)
    as (s4 & gs4 & E & _).
  rewrite E. split; [reflexivity|]. split; reflexivity.
Defined.

(** *** [Subscribe] *)

(** C9.  [Subscribe] with an id that is not registered registers a session
    under it: a new game (empty board, [X] to move, not over, no moves),
    empty seats and both timestamps set by the call; [Get] and [Join] on
    that id then succeed, and the other sessions are as they were.  With an
    id that is registered it leaves every session as it was. *)
Theorem Subscribe_registers s id now1 now2 :
  let s' := fst (Subscribe s id now1 now2) in
  (games s !! id = None ->
     Get s' id = Some {| ID := id; Game := domain.New; X := EmptyString;
                         O := EmptyString; Created := now1; Updated := now2 |} /\
     domain.New = domain.mkGame (replicate 9 domain.Empty) domain.X
                    domain.Empty false 0 /\
     (forall playerID now, exists side gs,
        snd (Join s' id playerID now) = (side, Some gs, None)) /\
     (forall id', id' <> id -> games s' !! id' = games s !! id')) /\
  (is_Some (games s !! id) -> games s' = games s).
Proof.
  intros s'. subst s'. unfold Subscribe, Get. simpl. split.
  - intros ->. split; [apply lookup_insert_eq|]. split; [reflexivity|]. split.
    + intros playerID now.
      erewrite Join_registered by (simpl; apply lookup_insert_eq).
      simpl. eauto.
    + intros id' Hne. apply lookup_insert_ne. congruence.
  - intros [gs ->]. reflexivity.
Qed.

Lemma Subscribe_registers_witness :
  let s' := fst (Subscribe NewService "fresh" 7 8) in
  Get s' "fresh"
  = Some {| ID := "fresh"; Game := domain.New; X := EmptyString;
            O := EmptyString; Created := 7; Updated := 8 |} /\
  fst (fst (snd (Join s' "fresh" "p1" 9))) = domain.X.
Proof.
  intros s'.
  destruct (Subscribe_registers NewService "fresh" 7 8) as [Hnew _].
  destruct (Hnew eq_refl) as (HG & _ & _ & _).
  split; [exact HG | reflexivity].
Defined.

(** *** The fan-out of a publish *)

(** One publish, seen from a registered subscriber: an empty channel takes
    the payload and the subscriber stays; a full one is closed and the
    subscriber leaves the registry. *)
Lemma publish_one s hs id playerID r c now res cp a :
  service_inv s hs ->
  Play s id playerID r c now = Some res -> result res = Some cp ->
  a ∈ copySubsLocked s id ->
  exists sub, heap s !! a = Some sub /\ closed sub = false /\
    ((ch sub = [] /\
      heap (after res) !! a = Some {| ch := [render s cp]; closed := false |} /\
      a ∈ copySubsLocked (after res) id)
     \/ (length (ch sub) = ch_cap /\
         heap (after res) !! a = Some {| ch := ch sub; closed := true |} /\
         a ∉ copySubsLocked (after res) id)).
Proof.
  intros Hinv HP Hres Ha.
  assert (He : err res = None).
  { destruct (err res) as [e|] eqn:He; [|reflexivity].
    destruct (Play_failed_same _ _ _ _ _ _ _ _ HP He) as [_ Hn]. congruence. }
  pose proof (Play_ok_registered s hs id playerID r c now res a Hinv HP He) as Hreg.
  destruct (Play_ok_spec _ _ _ _ _ _ _ _ Hinv HP He)
    as (gs & g' & _ & _ & _ & Hcp & _ & _ & Hheap & _).
  rewrite Hres in Hcp. injection Hcp as ->.
  pose proof Ha as Ha'. apply copySubsLocked_elem in Ha' as (set & Hs & Hin).
  destruct (inv_registered s hs Hinv id set a Hs Hin) as (_ & sub & Hsub & Hc).
  pose proof (inv_cap s hs Hinv a sub Hsub) as Hcap.
  exists sub. split; [exact Hsub|]. split; [exact Hc|].
  specialize (Hheap a). rewrite decide_True, Hsub in Hheap by exact Ha.
  simpl in Hheap. unfold full_at in Hreg. rewrite Hsub in Hreg.
  unfold deliver in Hheap. destruct (is_full sub) eqn:EF.
  - right. unfold is_full in EF. apply negb_true_iff, bool_decide_eq_false in EF.
    split; [lia|]. split.
    + rewrite Hheap. unfold close. rewrite Hc. reflexivity.
    + rewrite Hreg. intros [_ ?]. discriminate.
  - left. unfold is_full in EF. apply negb_false_iff, bool_decide_eq_true in EF.
    unfold ch_cap in EF.
    assert (Hnil : ch sub = []) by (destruct (ch sub); [reflexivity | simpl in EF; lia]).
    split; [exact Hnil|]. split.
    + rewrite Hheap, Hnil, Hc. reflexivity.
    + apply Hreg. split; [exact Ha | reflexivity].
Qed.

(** A call of [Play] returns a game state exactly when it returns no error. *)
Lemma Play_result_err s id playerID r c now res :
  Play s id playerID r c now = Some res ->
  (err res = None /\ is_Some (result res))
  \/ (is_Some (err res) /\ result res = None /\ after res = s).
Proof.
  intros HP. destruct (err res) as [e|] eqn:He.
  - right. destruct (Play_failed_same _ _ _ _ _ _ _ _ HP He) as [-> ->]. eauto.
  - left. split; [reflexivity|].
    destruct (Play_ok_inv _ _ _ _ _ _ _ HP He) as (? & ? & ? & ? & ? & _ & _ & _ & _ & ->).
    simpl. eauto.
Qed.

(** The subscriber that [Subscribe] makes is registered with an empty
    channel. *)
Lemma Subscribe_new s id now1 now2 :
  let s1 := fst (Subscribe s id now1 now2) in
  let a := snd (Subscribe s id now1 now2) in
  a ∈ copySubsLocked s1 id /\
  heap s1 !! a = Some {| ch := []; closed := false |}.
Proof.
  unfold Subscribe. simpl. split.
  - apply copySubsLocked_elem. simpl. rewrite lookup_insert_eq.
    eexists. split; [reflexivity|]. apply elem_of_union. right.
    apply elem_of_singleton. reflexivity.
  - apply lookup_insert_eq.
Qed.


(** *** The mutex and the renderer *)

(** The fan-out loop adds sends and closes to the trace, nothing else. *)
Lemma fanout_trace p : forall snap h toDrop tr h' toDrop' tr',
  fanout snap p h toDrop tr = Some (h', toDrop', tr') ->
  exists evs, tr' = tr ++ evs /\ forallb is_fanout_event evs = true.
Proof.
  induction snap as [|a rest IH]; intros h toDrop tr h' toDrop' tr' HF; simpl in HF.
  - injection HF as _ _ <-. exists []. rewrite app_nil_r. auto.
  - destruct (h !! a) as [sub|]; [|discriminate].
    destruct (try_send p sub) as [sub'| |]; [| |discriminate];
      apply IH in HF as (evs & -> & Hevs);
      eexists (_ :: evs); rewrite <- app_assoc;
      (split; [reflexivity | simpl; exact Hevs]).
Qed.

Lemma discipline_fanout evs rest :
  forallb is_fanout_event evs = true ->
  discipline false (evs ++ rest) = discipline false rest.
Proof.
  induction evs as [|e evs IH]; [reflexivity|]. simpl.
  intros H. apply andb_true_iff in H as [He H].
  destruct e; try discriminate; simpl; apply IH; exact H.
Qed.

Lemma rendered_fanout evs : forallb is_fanout_event evs = true -> rendered evs = [].
Proof.
  induction evs as [|e evs IH]; [reflexivity|]. simpl.
  intros H. apply andb_true_iff in H as [He H].
  destruct e; try discriminate; unfold rendered in *; simpl; apply IH; exact H.
Qed.

Lemma drop_all_trace id toDrop m :
  discipline false (snd (drop_all id toDrop m)) = true /\
  rendered (snd (drop_all id toDrop m)) = [].
Proof.
  destruct toDrop as [|a l]; [split; reflexivity|].
  unfold drop_all. cbn [snd]. generalize (a :: l). clear a l. intros l.
  change (discipline false ([EvLock] ++ map EvDelete l ++ [EvUnlock]))
    with (discipline true (map EvDelete l ++ [EvUnlock])).
  unfold rendered. split; induction l as [|a l IH]; simpl; auto.
Qed.

(** C7, as the code has it.  On every successful [Play] the renderer is
    called once, on the snapshot that [Play] returns, while the mutex is
    held: the trace starts with the lock, the call of the renderer and the
    unlock.  What happens with the mutex free is the fan-out: the whole
    trace keeps the discipline of sends and closes outside the lock and of
    registry deletions inside it. *)
Theorem render_before_unlock s id playerID r c now res :
  Play s id playerID r c now = Some res -> err res = None ->
  exists cp rest,
    result res = Some cp /\
    trace res = EvLock :: EvRender cp :: EvUnlock :: rest /\
    rendered (trace res) = [cp] /\
    discipline false (trace res) = true /\
    renders_unlocked false (trace res) = false.
Proof.
  intros HP He.
  destruct (Play_ok_inv _ _ _ _ _ _ _ HP He)
    as (gs & g' & h' & toDrop & tr & _ & _ & _ & HF & ->).
  apply fanout_trace in HF as (evs & -> & Hevs).
  destruct (drop_all_trace id toDrop (subs s)) as [Hd Hr].
  eexists _, (evs ++ snd (drop_all id toDrop (subs s))). simpl.
  split; [reflexivity|]. split; [reflexivity|].
  split; [|split; [|reflexivity]].
  - unfold rendered in *. simpl. rewrite omap_app.
    fold (rendered evs). rewrite (rendered_fanout evs Hevs), Hr. reflexivity.
  - rewrite discipline_fanout by exact Hevs. exact Hd.
Qed.

Lemma render_before_unlock_witness :
  let s := fst (Subscribe (fst (Join (fst (Join (fst (CreateGame
                 (NewServiceWithRenderer (Some testRenderer)) "g" 1))
                 "g" "p1" 2)) "g" "p2" 3)) "g" 4 5) in
  exists res cp,
    Play s "g" "p1" 0 0 6 = Some res /\
    trace res = [EvLock; EvRender cp; EvUnlock; EvSend 0%nat] /\
    discipline false (trace res) = true.
Proof.
  intros s. eexists _, _. split; [vm_compute; reflexivity|].
  split; [reflexivity|].
  match goal with
  | |- discipline false (trace ?res) = true =>
      destruct (render_before_unlock s "g" "p1" 0 0 6 res)
        as (cp & rest & _ & _ & _ & H & _);
        [vm_compute; reflexivity | reflexivity | exact H]
  end.
Defined.

(** C7, as it is stated, fails: here is a successful [Play] whose call of
    the renderer happens while the mutex is held. *)
Lemma render_after_unlock_fails :
  ~ (forall s id playerID r c now res,
       Play s id playerID r c now = Some res -> err res = None ->
       renders_unlocked false (trace res) = true).
Proof.
  intros H.
  specialize (H (fst (Join (fst (Join (fst (CreateGame NewService "g" 1))
                                   "g" "p1" 2)) "g" "p2" 3))
                "g" "p1" 0 0 4 _ eq_refl eq_refl).
  vm_compute in H. discriminate.
Qed.

End AppProofs.

(** * Further properties of the rules engine *)

Module DomainMore.
Import domain DomainProofs.

(** Linear arithmetic with division and remainder by constants. *)
Ltac div_lia := Z.to_euclidean_division_equations; lia.

(** On a game that satisfies the invariant an accepted move adds one to the
    move count: the count is far from the end of Go's [int]. *)
Lemma accepted_move_counts g r c g' :
  game_inv g -> Play g r c = (g', None) -> Moves g' = Moves g + 1.
Proof.
  intros Hinv HP.
  destruct (Play_accepted_inv _ _ _ _ HP) as (HO & _ & _ & _ & Hg').
  destruct (inv_open g Hinv HO) as (_ & _ & _ & Hlt).
  pose proof (inv_moves g Hinv) as Hm.
  assert (HM : Moves g' = int_wrap (Moves g + 1)).
  { subst g'. destruct (hasWin _ _); [reflexivity|].
    destruct (_ =? 9); reflexivity. }
  rewrite HM. apply int_wrap_small.
  unfold int_min, int_max, int_bits. lia.
Qed.

Lemma playMoves_counts moves : forall g g',
  game_inv g -> playMoves g moves = Some g' ->
  game_inv g' /\ Moves g' = Moves g + Z.of_nat (length moves).
Proof.
  induction moves as [|[r c] rest IH]; intros g g' Hinv H; simpl in H.
  - injection H as <-. split; [exact Hinv | simpl; lia].
  - destruct (Play g r c) as [g1 [e|]] eqn:EP; [discriminate|].
    destruct (IH g1 g' (Play_inv _ _ _ _ Hinv EP) H) as [Hinv' HM].
    split; [exact Hinv'|].
    rewrite HM, (accepted_move_counts g r c g1 Hinv EP). simpl length. lia.
Qed.

(** X1.  A game lasts at most nine moves: whenever a list of moves is
    accepted one after the other from [New], the list has at most 9 moves
    and the move count of the game is its length. *)
Theorem game_at_most_nine_moves moves g :
  playMoves New moves = Some g ->
  Moves g = Z.of_nat (length moves) /\ (length moves <= 9)%nat.
Proof.
  intros H. destruct (playMoves_counts moves New g New_inv H) as [Hinv HM].
  simpl in HM. split; [exact HM|].
  pose proof (inv_moves g Hinv) as Hm. pose proof (marked_le (Board g)) as Hle.
  rewrite (inv_board g Hinv) in Hle. lia.
Qed.

Lemma game_at_most_nine_moves_witness :
  exists g,
    playMoves New [(0, 0); (0, 1); (0, 2); (1, 1); (1, 0); (1, 2);
                   (2, 1); (2, 0); (2, 2)] = Some g /\
    Moves g = 9 /\ Over g = true /\ Winner g = Empty.
Proof.
  eexists. split; [vm_compute; reflexivity|].
  split; [|split; reflexivity].
  apply (game_at_most_nine_moves
           [(0, 0); (0, 1); (0, 2); (1, 1); (1, 0); (1, 2);
            (2, 1); (2, 0); (2, 2)]).
  vm_compute. reflexivity.
Defined.

(** X2.  In a reachable game the turn tag is never [Empty]; [X] has made
    the moves 1, 3, 5, ... and [O] the moves 2, 4, ..., so the board holds
    [(n+1)/2] marks of [X] and [n/2] marks of [O] after [n] moves; and while
    the game is open it is the turn of [X] exactly when [n] is even. *)
Theorem turns_alternate g :
  reachable g ->
  (Turn g = X \/ Turn g = O) /\
  Z.of_nat (count X (Board g)) = (Moves g + 1) / 2 /\
  Z.of_nat (count O (Board g)) = Moves g / 2 /\
  (Over g = false -> (Turn g = X <-> Moves g mod 2 = 0)) /\
  (Over g = true -> (Turn g = X <-> Moves g mod 2 = 1)).
Proof.
  intros Hg. pose proof (game_reachable_inv g Hg) as [Hb Hm Ht _ _].
  pose proof (marked_count (Board g)) as Hmc.
  unfold balanced in Ht.
  destruct (Over g); destruct Ht as [[E Hc]|[E Hc]]; rewrite E;
    (split; [auto|]); (split; [div_lia|]); (split; [div_lia|]);
    split; intros HO; try discriminate;
    (split; [intros Hx; try discriminate; div_lia
            | intros Hp; try reflexivity; exfalso; div_lia]).
Qed.

Lemma turns_alternate_witness :
  exists g, playMoves New [(1, 1); (0, 0); (2, 2)] = Some g /\
    Z.of_nat (count X (Board g)) = (Moves g + 1) / 2 /\
    Z.of_nat (count O (Board g)) = Moves g / 2 /\
    Moves g = 3 /\ Turn g = O.
Proof.
  eexists. split; [vm_compute; reflexivity|].
  match goal with |- Z.of_nat (count X (Board ?g)) = _ /\ _ =>
    assert (Hg : reachable g)
      by (apply (playMoves_reachable [(1, 1); (0, 0); (2, 2)] New);
          [apply reach_New | vm_compute; reflexivity]);
    destruct (turns_alternate g Hg) as (_ & HX & HO & _)
  end.
  split; [exact HX|]. split; [exact HO|]. split; reflexivity.
Defined.



(** A board with fewer marks than cells has an empty cell. *)
Lemma empty_cell_exists (b : list Cell) :
  (marked b < length b)%nat -> exists i, b !! i = Some Empty.
Proof.
  unfold marked. induction b as [|x b IH]; simpl length; [lia|].
  rewrite filter_length_cons. destruct x.
  - intros _. exists 0%nat. reflexivity.
  - rewrite decide_True by discriminate. intros H.
    destruct IH as [i Hi]; [lia|]. exists (S i). exact Hi.
  - rewrite decide_True by discriminate. intros H.
    destruct IH as [i Hi]; [lia|]. exists (S i). exact Hi.
Qed.

(** X4.  A reachable game that is not over accepts some move: there is a
    cell within bounds on which [Play] returns no error.  (A game that is
    over accepts none.) *)
Theorem open_game_has_move g :
  reachable g ->
  (Over g = false ->
     exists r c g', 0 <= r <= 2 /\ 0 <= c <= 2 /\ Play g r c = (g', None)) /\
  (Over g = true -> forall r c, snd (Play g r c) = Some ErrGameOver).
Proof.
  intros Hg. pose proof (game_reachable_inv g Hg) as [Hb Hm _ Hop _]. split.
  - intros HO. destruct (Hop HO) as (_ & _ & _ & Hlt).
    destruct (empty_cell_exists (Board g)) as [i Hi]; [rewrite Hb; lia|].
    pose proof (lookup_lt_Some _ _ _ Hi) as Hlt9. rewrite Hb in Hlt9.
    set (r := Z.of_nat i / 3). set (c := Z.of_nat i mod 3).
    assert (Hr : 0 <= r <= 2) by (unfold r; div_lia).
    assert (Hc : 0 <= c <= 2) by (unfold c; div_lia).
    assert (Hidx : Z.to_nat (r * 3 + c) = i) by (unfold r, c; div_lia).
    destruct (Play_cases g r c)
      as [(E & _)|[(_ & Hoob & _)|[(_ & _ & Hocc & _)|(_ & _ & _ & g' & HP)]]].
    + congruence.
    + exfalso. lia.
    + exfalso. apply Hocc. rewrite Hidx.
      apply list_lookup_total_correct. exact Hi.
    + exists r, c, g'. auto.
  - intros HO r c. unfold Play. rewrite HO. reflexivity.
Qed.

Lemma open_game_has_move_witness :
  exists g r c g',
    playMoves New [(0, 0); (0, 1); (0, 2); (1, 1); (1, 0); (1, 2);
                   (2, 1); (2, 0)] = Some g /\
    Play g r c = (g', None).
Proof.
  eexists. 
  assert (HP : playMoves New [(0, 0); (0, 1); (0, 2); (1, 1); (1, 0); (1, 2);
                              (2, 1); (2, 0)] = Some _)
    by (vm_compute; reflexivity).
  match type of HP with _ = Some ?g =>
    assert (Hg : reachable g)
      by (apply (playMoves_reachable [(0, 0); (0, 1); (0, 2); (1, 1); (1, 0);
                                      (1, 2); (2, 1); (2, 0)] New);
          [apply reach_New | exact HP]);
    destruct (open_game_has_move g Hg) as [Hopen _];
    destruct (Hopen eq_refl) as (r & c & g' & _ & _ & Hplay)
  end.
  exists r, c, g'. split; [exact HP | exact Hplay].
Defined.

(** X5.  A cell is played once: after an accepted move on [(r, c)], made
    under a turn tag that is a seat, every later call of [Play] on [(r, c)]
    is rejected, with [ErrOccupied] or (once the game is over) with
    [ErrGameOver], whatever calls came in between. *)
Theorem cell_played_once g r c g1 g2 :
  board_ok (Board g) -> Turn g <> Empty ->
  Play g r c = (g1, None) -> steps g1 g2 ->
  exists e, Play g2 r c = (g2, Some e) /\ (e = ErrOccupied \/ e = ErrGameOver).
Proof.
  intros Hb Ht HP Hs.
  destruct (Play_accepted_inv _ _ _ _ HP) as (_ & Hr & Hc & _ & Hg').
  assert (HB : Board g1 = <[Z.to_nat (r * 3 + c) := Turn g]> (Board g)).
  { subst g1. destruct (hasWin _ _); [reflexivity|].
    destruct (_ =? 9); reflexivity. }
  assert (H1 : Board g1 !! Z.to_nat (r * 3 + c) = Some (Turn g)).
  { rewrite HB. apply list_lookup_insert_eq. rewrite Hb. apply idx_on_board; assumption. }
  assert (H2 : Board g2 !! Z.to_nat (r * 3 + c) = Some (Turn g)).
  { clear HP Hg' HB. induction Hs as [|g1 g3 g4 _ IH Hst]; [exact H1|].
    eapply step_keeps_marks; eauto. }
  apply list_lookup_total_correct in H2.
  destruct (Play_cases g2 r c)
    as [(_ & E)|[(_ & Hoob & _)|[(_ & _ & _ & E)|(_ & _ & Hemp & _)]]].
  - eauto.
  - exfalso. lia.
  - eauto.
  - congruence.
Qed.

Lemma cell_played_once_witness :
  exists g1 g2,
    Play New 1 1 = (g1, None) /\ Play g1 0 0 = (g2, None) /\
    Play g2 1 1 = (g2, Some ErrOccupied).
Proof.
  eexists _, _. split; [vm_compute; reflexivity|].
  split; [vm_compute; reflexivity|].
  match goal with |- Play ?g2 1 1 = _ =>
    destruct (cell_played_once New 1 1 _ g2 eq_refl ltac:(discriminate) eq_refl)
      as (e & HP & He)
  end.
  - eapply steps_call; [apply steps_refl|]. exists 0, 0. reflexivity.
  - rewrite HP. f_equal. f_equal.
    apply (f_equal snd) in HP. vm_compute in HP. injection HP as <-. reflexivity.
Defined.

(** X6.  The zero value of [Game] is not a game to play: under the turn
    tag [Empty] an accepted move writes [Empty], so the board stays as it
    was while the move count goes up; on the zero value itself the first
    move within bounds finds three [Empty] cells in a row and ends the game
    at once, without a winner. *)
Theorem empty_turn_marks_nothing g r c g' :
  Turn g = Empty -> Play g r c = (g', None) ->
  Board g' = Board g /\ Moves g' = int_wrap (Moves g + 1) /\
  (g = mkGame (replicate 9 Empty) Empty Empty false 0 ->
     g' = mkGame (replicate 9 Empty) Empty Empty true 1).
Proof.
  intros Ht HP.
  destruct (Play_accepted_inv _ _ _ _ HP) as (HO & Hr & Hc & HE & Hg').
  rewrite Ht in Hg'.
  assert (Hsame : <[Z.to_nat (r * 3 + c) := Empty]> (Board g) = Board g).
  { destruct (decide (Z.to_nat (r * 3 + c) < length (Board g))%nat) as [Hlt|Hge].
    - apply list_insert_id. apply empty_cell_lookup; assumption.
    - apply list_insert_ge. lia. }
  rewrite Hsame in Hg'. split; [|split].
  - subst g'. destruct (hasWin _ _); [reflexivity|].
    destruct (_ =? 9); reflexivity.
  - subst g'. destruct (hasWin _ _); [reflexivity|].
    destruct (_ =? 9); reflexivity.
  - intros ->. subst g'. reflexivity.
Qed.

Lemma empty_turn_marks_nothing_witness :
  Play (mkGame (replicate 9 Empty) Empty Empty false 0) 2 1
  = (mkGame (replicate 9 Empty) Empty Empty true 1, None).
Proof.
  destruct (Play (mkGame (replicate 9 Empty) Empty Empty false 0) 2 1)
    as [g' e] eqn:EP.
  assert (e = None) as -> by (apply (f_equal snd) in EP; vm_compute in EP; congruence).
  destruct (empty_turn_marks_nothing
              (mkGame (replicate 9 Empty) Empty Empty false 0) 2 1 g' eq_refl EP)
    as (_ & _ & Hz).
  rewrite (Hz eq_refl). reflexivity.
Defined.

End DomainMore.

(** * Further properties of the session service *)

Module AppMore.
Import app AppProofs.

(** X7.  Every session stored in a reachable service is filed under its own
    id, its game is one that the rules engine reaches from [domain.New] by
    accepted moves, and its two seats are not held by the same identity. *)
Theorem stored_sessions s hs :
  reachable s hs ->
  forall id gs, games s !! id = Some gs ->
    ID gs = id /\ domain.reachable (Game gs) /\
    (X gs = O gs -> X gs = EmptyString).
Proof.
  induction 1 as [f|s hs f Hr IH|s hs id0 now Hr IH|s hs id0 pid now Hr IH
                 |s hs id0 pid r c now res Hr IH HP|s hs id0 n1 n2 Hr IH
                 |s hs id0 a Hr IH Hh|s hs a Hr IH];
    intros id gs Hl.
  - simpl in Hl. rewrite lookup_empty in Hl. discriminate.
  - apply IH. exact Hl.
  - simpl in Hl. destruct (decide (id0 = id)) as [->|Hne].
    + rewrite lookup_insert_eq in Hl. injection Hl as <-. simpl.
      split; [reflexivity|]. split; [apply domain.reach_New | reflexivity].
    + rewrite lookup_insert_ne in Hl by exact Hne. apply IH. exact Hl.
  - destruct (games s !! id0) as [gs0|] eqn:EG;
      [|unfold Join in Hl; rewrite EG in Hl; apply IH; exact Hl].
    rewrite (Join_registered s id0 pid now gs0 EG) in Hl. simpl in Hl.
    destruct (decide (id0 = id)) as [->|Hne];
      [|rewrite lookup_insert_ne in Hl by exact Hne; apply IH; exact Hl].
    rewrite lookup_insert_eq in Hl. injection Hl as <-.
    destruct (IH id gs0 EG) as (HI & HG & HS).
    pose proof (inv_seats s hs (service_reachable_inv s hs Hr) id gs0 EG) as Hseats.
    destruct (seat_join_cases gs0 pid)
      as [(H1 & E)|[(H1 & H2 & H3 & E)|(H1 & H2 & H3 & H4 & E)]];
      rewrite E; simpl; (split; [exact HI|]); (split; [exact HG|]);
      [|congruence|exact HS].
    intros Heq. destruct H1 as [H1|H1]; [|rewrite <- H1; apply HS; congruence].
    destruct (decide (O gs0 = EmptyString)) as [HO|HO]; [congruence|].
    exfalso. apply (Hseats HO). exact H1.
  - destruct (err res) as [e|] eqn:He.
    + destruct (Play_failed_same _ _ _ _ _ _ _ _ HP He) as [Hs _].
      rewrite Hs in Hl. apply IH. exact Hl.
    + destruct (Play_ok_inv _ _ _ _ _ _ _ HP He)
        as (gs0 & g' & h' & toDrop & tr & EG & _ & EP & _ & ->).
      simpl in Hl. destruct (decide (id0 = id)) as [->|Hne];
        [|rewrite lookup_insert_ne in Hl by exact Hne; apply IH; exact Hl].
      rewrite lookup_insert_eq in Hl. injection Hl as <-. simpl.
      destruct (IH id gs0 EG) as (HI & HG & HS).
      split; [exact HI|]. split; [|exact HS].
      eapply domain.reach_Play; eassumption.
  - unfold Subscribe in Hl. simpl in Hl.
    destruct (games s !! id0) as [gs0|] eqn:EG; [apply IH; exact Hl|].
    destruct (decide (id0 = id)) as [->|Hne].
    + rewrite lookup_insert_eq in Hl. injection Hl as <-. simpl.
      split; [reflexivity|]. split; [apply domain.reach_New | reflexivity].
    + rewrite lookup_insert_ne in Hl by exact Hne. apply IH. exact Hl.
  - apply IH. exact Hl.
  - apply IH. unfold recv in Hl.
    destruct (heap s !! a) as [sub|]; [|exact Hl].
    destruct (ch sub); exact Hl.
Qed.

Lemma stored_sessions_witness :
  let s := fst (Join (fst (Join (fst (CreateGame NewService "g" 1))
                             "g" "p1" 2)) "g" "p2" 3) in
  exists res gs,
    Play s "g" "p1" 1 1 4 = Some res /\
    games (after res) !! "g" = Some gs /\
    ID gs = "g" /\ domain.reachable (Game gs) /\ X gs <> O gs.
Proof.
  intros s.
  assert (Hr : reachable s ∅)
    by (apply run_Join, run_Join, run_CreateGame, (run_New (Some nil_renderer))).
  assert (E : Play s "g" "p1" 1 1 4 = Some _) by (vm_compute; reflexivity).
  match type of E with
  | _ = Some ?res =>
      exists res; pose proof (run_Play s ∅ "g" "p1" 1 1 4 res Hr E) as Hr'
  end.
  eexists. split; [exact E|]. split; [vm_compute; reflexivity|].
  match goal with
  | |- ID ?gs = _ /\ _ =>
      destruct (stored_sessions _ _ Hr' "g" gs) as (HI & HG & _);
        [vm_compute; reflexivity|]
  end.
  split; [exact HI|]. split; [exact HG | discriminate].
Defined.

(** *** Seating a new session *)

Lemma seat_join_first gs playerID :
  X gs = EmptyString ->
  seat_join gs playerID = (with_seats gs playerID (O gs), domain.X).
Proof.
  intros HX. destruct (seat_join_cases gs playerID)
    as [(_ & E)|[(H1 & _)|(H1 & _)]]; [exact E | contradiction | contradiction].
Qed.

Lemma seat_join_returning gs playerID :
  X gs = playerID ->
  seat_join gs playerID = (with_seats gs playerID (O gs), domain.X).
Proof.
  intros HX. destruct (seat_join_cases gs playerID)
    as [(_ & E)|[(_ & H1 & _)|(_ & H1 & _)]]; [exact E | contradiction | contradiction].
Qed.

Lemma seat_join_second gs playerID :
  X gs <> EmptyString -> X gs <> playerID -> O gs = EmptyString ->
  seat_join gs playerID = (with_seats gs (X gs) playerID, domain.O).
Proof.
  intros H1 H2 HO. destruct (seat_join_cases gs playerID)
    as [([?|?] & _)|[(_ & _ & _ & E)|(_ & _ & H3 & _)]];
    [contradiction | contradiction | exact E | contradiction].
Qed.

Lemma seat_join_spectator gs playerID :
  X gs <> EmptyString -> X gs <> playerID ->
  O gs <> EmptyString -> O gs <> playerID ->
  seat_join gs playerID = (gs, domain.Empty).
Proof.
  intros H1 H2 H3 H4. destruct (seat_join_cases gs playerID)
    as [([?|?] & _)|[(_ & _ & [?|?] & _)|(_ & _ & _ & _ & E)]];
    try contradiction. exact E.
Qed.

(** X8.  [CreateGame] files a new session that [Get] returns: a new game,
    empty seats, both timestamps at the time of the call; the other
    sessions, the registry and the subscribers stay as they were.  On it
    the first identity to join gets [X], the next other identity gets [O],
    any further identity gets [Empty], and the first one gets [X] again
    afterwards.  (The identities that take the seats are not the empty
    string.) *)
Theorem new_session_seating s id now p1 p2 p3 t1 t2 t3 t4 :
  p1 <> EmptyString -> p2 <> EmptyString ->
  p2 <> p1 -> p3 <> p1 -> p3 <> p2 ->
  let s0 := fst (CreateGame s id now) in
  let j1 := Join s0 id p1 t1 in
  let j2 := Join (fst j1) id p2 t2 in
  let j3 := Join (fst j2) id p3 t3 in
  let j4 := Join (fst j3) id p1 t4 in
  Get s0 id = Some {| ID := id; Game := domain.New; X := EmptyString;
                      O := EmptyString; Created := now; Updated := now |} /\
  snd (CreateGame s id now) = {| ID := id; Game := domain.New; X := EmptyString;
                                 O := EmptyString; Created := now; Updated := now |} /\
  (forall id', id' <> id -> Get s0 id' = Get s id') /\
  subs s0 = subs s /\ heap s0 = heap s /\
  fst (fst (snd j1)) = domain.X /\
  fst (fst (snd j2)) = domain.O /\
  fst (fst (snd j3)) = domain.Empty /\
  snd j4 = (domain.X,
            Some {| ID := id; Game := domain.New; X := p1; O := p2;
                    Created := now; Updated := t4 |}, None).
Proof.
  intros Hp1 Hp2 H21 H31 H32 s0 j1 j2 j3 j4.
  assert (E0 : games s0 !! id
               = Some {| ID := id; Game := domain.New; X := EmptyString;
                         O := EmptyString; Created := now; Updated := now |})
    by apply lookup_insert_eq.
  assert (E1 : j1 = Join s0 id p1 t1) by reflexivity.
  rewrite (Join_registered s0 id p1 t1 _ E0), seat_join_first in E1 by reflexivity.
  assert (E2 : j2 = Join (fst j1) id p2 t2) by reflexivity.
  rewrite E1 in E2. simpl fst in E2.
  erewrite Join_registered in E2 by (simpl; apply lookup_insert_eq).
  rewrite seat_join_second in E2 by (simpl; congruence).
  assert (E3 : j3 = Join (fst j2) id p3 t3) by reflexivity.
  rewrite E2 in E3. simpl fst in E3.
  erewrite Join_registered in E3 by (simpl; apply lookup_insert_eq).
  rewrite seat_join_spectator in E3 by (simpl; congruence).
  assert (E4 : j4 = Join (fst j3) id p1 t4) by reflexivity.
  rewrite E3 in E4. simpl fst in E4.
  erewrite Join_registered in E4 by (simpl; apply lookup_insert_eq).
  rewrite seat_join_returning in E4 by reflexivity.
  split; [exact E0|]. split; [reflexivity|]. split.
  { intros id' Hne. unfold Get, s0. simpl. apply lookup_insert_ne. congruence. }
  split; [reflexivity|]. split; [reflexivity|].
  rewrite E1, E2, E3, E4. simpl. repeat split; reflexivity.
Qed.

Lemma new_session_seating_witness :
  let s0 := fst (CreateGame NewService "g" 1) in
  let s3 := fst (Join (fst (Join (fst (Join s0 "g" "alice" 2)) "g" "bob" 3))
                      "g" "carol" 4) in
  fst (fst (snd (Join s0 "g" "alice" 2))) = domain.X /\
  fst (fst (snd (Join s3 "g" "alice" 5))) = domain.X.
Proof.
  intros s0 s3.
  destruct (new_session_seating NewService "g" 1 "alice" "bob" "carol" 2 3 4 5)
    as (_ & _ & _ & _ & _ & H1 & _ & _ & H4); try discriminate.
  split; [exact H1|]. unfold s3, s0. rewrite H4. reflexivity.
Defined.

(** *** Turns on the service *)

Lemma seat_of_seats gs gs' playerID :
  X gs' = X gs -> O gs' = O gs -> seat_of gs' playerID = seat_of gs playerID.
Proof. intros HX HO. unfold seat_of. rewrite HX, HO. reflexivity. Qed.

Lemma seat_of_is_seat gs playerID seat :
  seat_of gs playerID = Some seat -> seat = domain.X \/ seat = domain.O.
Proof.
  unfold seat_of. repeat case_bool_decide; intros [= <-]; auto.
Qed.

(** X9.  No identity moves twice in a row: after a successful [Play] that
    leaves the game open, every [Play] of the same identity on that session
    fails with [ErrNotYourTurn]; and after one that ends the game, every
    [Play] on that session fails, whoever makes it, the one of the same
    identity with [domain.ErrGameOver]. *)
Theorem no_second_move s id playerID r c now res cp :
  Play s id playerID r c now = Some res -> result res = Some cp ->
  games (after res) !! id = Some cp /\
  (domain.Over (Game cp) = false ->
     forall r' c' now',
       Play (after res) id playerID r' c' now'
       = Some (mkPlayResult (after res) None (Some ErrNotYourTurn)
                 [EvLock; EvUnlock])) /\
  (domain.Over (Game cp) = true ->
     (forall r' c' now',
        Play (after res) id playerID r' c' now'
        = Some (mkPlayResult (after res) None
                  (Some (ErrDomain domain.ErrGameOver)) [EvLock; EvUnlock])) /\
     (forall q r' c' now' res',
        Play (after res) id q r' c' now' = Some res' ->
        is_Some (err res') /\ after res' = after res)).
Proof.
  intros HP Hcp.
  assert (He : err res = None).
  { destruct (err res) as [e|] eqn:He; [|reflexivity].
    destruct (Play_failed_same _ _ _ _ _ _ _ _ HP He) as [_ Hn]. congruence. }
  destruct (Play_ok_inv _ _ _ _ _ _ _ HP He)
    as (gs & g' & h' & toDrop & tr & EG & ES & EP & _ & ->).
  simpl in Hcp. injection Hcp as <-. simpl after. simpl Game.
  assert (EG' : games {| games := <[id := {| ID := ID gs; Game := g'; X := X gs;
                                            O := O gs; Created := Created gs;
                                            Updated := now |}]> (games s);
                        subs := fst (drop_all id toDrop (subs s));
                        heap := h'; render := render s |} !! id
                = Some {| ID := ID gs; Game := g'; X := X gs; O := O gs;
                          Created := Created gs; Updated := now |})
    by apply lookup_insert_eq.
  split; [exact EG'|].
  assert (ES' : seat_of {| ID := ID gs; Game := g'; X := X gs; O := O gs;
                           Created := Created gs; Updated := now |} playerID
                = Some (domain.Turn (Game gs)))
    by (rewrite <- ES; apply seat_of_seats; reflexivity).
  destruct (DomainProofs.Play_accepted_inv _ _ _ _ EP) as (_ & _ & _ & _ & Hg').
  split.
  - intros HO r' c' now'. unfold Play. rewrite EG', ES'. simpl.
    assert (HT : domain.Turn g' = domain.flip (domain.Turn (Game gs))).
    { revert HO. rewrite Hg'.
      destruct (domain.hasWin _ _); [simpl; discriminate|].
      destruct (_ =? 9); [simpl; discriminate | reflexivity]. }
    rewrite bool_decide_eq_false_2; [reflexivity|].
    rewrite HT. destruct (seat_of_is_seat _ _ _ ES) as [->| ->]; discriminate.
  - intros HO.
    assert (HT : domain.Turn g' = domain.Turn (Game gs)).
    { revert HO. rewrite Hg'.
      destruct (domain.hasWin _ _); [reflexivity|].
      destruct (_ =? 9); [reflexivity|]. simpl.
      destruct (DomainProofs.Play_accepted_inv _ _ _ _ EP) as (-> & _). discriminate. }
    split.
    + intros r' c' now'. unfold Play. rewrite EG', ES'. simpl.
      rewrite bool_decide_eq_true_2 by (symmetry; exact HT). simpl.
      unfold domain.Play. rewrite HO. reflexivity.
    + intros q r' c' now' res'. unfold Play. rewrite EG'.
      destruct (seat_of _ q) as [seat|]; [|intros [= <-]; simpl; eauto].
      simpl. case_bool_decide; simpl; [|intros [= <-]; simpl; eauto].
      unfold domain.Play. rewrite HO. intros [= <-]. simpl. eauto.
Qed.

Lemma no_second_move_witness :
  let s := fst (Join (fst (Join (fst (CreateGame NewService "g" 1))
                             "g" "p1" 2)) "g" "p2" 3) in
  exists res res',
    Play s "g" "p1" 0 0 4 = Some res /\
    Play (after res) "g" "p1" 1 1 5 = Some res' /\
    err res' = Some ErrNotYourTurn.
Proof.
  intros s.
  assert (E : Play s "g" "p1" 0 0 4 = Some _) by (vm_compute; reflexivity).
  match type of E with
  | _ = Some ?res =>
      exists res;
      destruct (no_second_move s "g" "p1" 0 0 4 res _ E eq_refl) as (_ & Hopen & _)
  end.
  eexists. split; [exact E|]. split; [apply Hopen; reflexivity | reflexivity].
Defined.

(** *** Sessions do not disturb each other *)

(** A subscriber is registered for one id only. *)
Lemma registered_once s hs id id' a :
  service_inv s hs ->
  a ∈ copySubsLocked s id -> a ∈ copySubsLocked s id' -> id' = id.
Proof.
  intros Hinv H1 H2.
  apply copySubsLocked_elem in H1 as (set1 & Hs1 & Ha1).
  apply copySubsLocked_elem in H2 as (set2 & Hs2 & Ha2).
  destruct (inv_registered s hs Hinv id set1 a Hs1 Ha1) as (Hh1 & _).
  destruct (inv_registered s hs Hinv id' set2 a Hs2 Ha2) as (Hh2 & _).
  destruct (inv_handle s hs Hinv id a Hh1) as [_ Hu]. apply Hu. exact Hh2.
Qed.

(** X10.  A call of [Play] on one session of a reachable service, whether
    it succeeds or fails, leaves every other session as it was: its stored
    state, its set of registered subscribers and the channels of those
    subscribers. *)
Theorem Play_other_sessions s hs id playerID r c now res id' :
  reachable s hs -> Play s id playerID r c now = Some res -> id' <> id ->
  games (after res) !! id' = games s !! id' /\
  subs (after res) !! id' = subs s !! id' /\
  forall a, a ∈ copySubsLocked s id' -> heap (after res) !! a = heap s !! a.
Proof.
  intros Hr HP Hne. pose proof (service_reachable_inv s hs Hr) as Hinv.
  destruct (err res) as [e|] eqn:He.
  { destruct (Play_failed_same _ _ _ _ _ _ _ _ HP He) as [-> _]. auto. }
  destruct (Play_ok_spec _ _ _ _ _ _ _ _ Hinv HP He)
    as (gs & g' & _ & _ & _ & _ & Hgames & _ & Hheap & Hsubs & _).
  split; [rewrite Hgames; apply lookup_insert_ne; congruence|]. split.
  - rewrite Hsubs. destruct (subs s !! id); [|reflexivity].
    apply lookup_insert_ne. congruence.
  - intros a Ha. rewrite Hheap. apply decide_False. intros Hin.
    apply Hne. exact (registered_once s hs id id' a Hinv Hin Ha).
Qed.

Lemma Play_other_sessions_witness :
  let s0 := fst (Join (fst (CreateGame (fst (CreateGame NewService "g" 1)) "h" 2))
                      "g" "p1" 3) in
  let s := fst (Subscribe s0 "h" 4 5) in
  let a := snd (Subscribe s0 "h" 4 5) in
  exists res,
    Play s "g" "p1" 0 0 6 = Some res /\ err res = None /\
    heap (after res) !! a = Some {| ch := []; closed := false |} /\
    games (after res) !! "h" = games s !! "h".
Proof.
  intros s0 s a.
  assert (Hr : reachable s ({[ ("h", a) ]} ∪ ∅))
    by (apply run_Subscribe, run_Join, run_CreateGame, run_CreateGame,
          (run_New (Some nil_renderer))).
  assert (E : Play s "g" "p1" 0 0 6 = Some _) by (vm_compute; reflexivity).
  match type of E with
  | _ = Some ?res =>
      exists res;
      destruct (Play_other_sessions s _ "g" "p1" 0 0 6 res "h" Hr E)
        as (Hg & _ & Hh); [discriminate|]
  end.
  split; [exact E|]. split; [reflexivity|]. split; [|exact Hg].
  rewrite (Hh a); [vm_compute; reflexivity|].
  apply copySubsLocked_elem. eexists. split; [vm_compute; reflexivity|].
  vm_compute. reflexivity.
Defined.

(** *** Teardown of a subscriber *)

Lemma close_close sub : close (close sub) = close sub.
Proof. unfold close. destruct (closed sub) eqn:E; simpl; rewrite ?E; reflexivity. Qed.

Lemma close_closed sub : closed sub = true -> close sub = sub.
Proof. unfold close. intros ->. reflexivity. Qed.

Lemma delete_sub_twice id (m : gmap string (gset nat)) a :
  delete_sub id (delete_sub id m a) a = delete_sub id m a.
Proof.
  unfold delete_sub. destruct (m !! id) as [set|] eqn:E; [|rewrite E; reflexivity].
  rewrite lookup_insert_eq, insert_insert_eq. f_equal.
  apply set_eq. intros x. rewrite !elem_of_difference. tauto.
Qed.

Lemma delete_sub_absent id (m : gmap string (gset nat)) a :
  (forall set, m !! id = Some set -> a ∉ set) -> delete_sub id m a = m.
Proof.
  intros H. unfold delete_sub. destruct (m !! id) as [set|] eqn:E; [|reflexivity].
  assert (set ∖ {[a]} = set) as ->.
  { apply set_eq. intros x. rewrite elem_of_difference, elem_of_singleton.
    split; [tauto|]. intros Hx. split; [exact Hx|]. intros ->.
    exact (H set eq_refl Hx). }
  apply insert_id. exact E.
Qed.

(** X11.  [unsub], the teardown that [Subscribe] returns, run for one of
    its handles on a reachable service: the subscriber is then registered
    for no id, its channel is closed and still holds what it had buffered,
    and sessions and renderer are as before. *)
Theorem unsub_tears_down s hs id a :
  reachable s hs -> (id, a) ∈ hs ->
  (forall id', a ∉ copySubsLocked (unsub s id a) id') /\
  (exists sub, heap s !! a = Some sub /\
     heap (unsub s id a) !! a = Some {| ch := ch sub; closed := true |}) /\
  (forall b, b <> a -> heap (unsub s id a) !! b = heap s !! b) /\
  games (unsub s id a) = games s /\ render (unsub s id a) = render s.
Proof.
  intros Hr Hh. pose proof (service_reachable_inv s hs Hr) as Hinv.
  pose proof (inv_unsub s hs id a Hinv Hh) as Hinv'.
  destruct (inv_handle s hs Hinv id a Hh) as [[sub Hsub] Hu].
  split; [|split; [|split; [|split; reflexivity]]].
  - intros id' Hin.
    pose proof Hin as Hin'. apply copySubsLocked_elem in Hin' as (set & Hs & Ha).
    destruct (inv_registered _ _ Hinv' id' set a Hs Ha) as (Hh' & _).
    assert (id' = id) as -> by (apply Hu; exact Hh').
    unfold unsub, delete_sub in Hs. simpl in Hs.
    destruct (subs s !! id) as [set0|] eqn:E.
    + rewrite lookup_insert_eq in Hs. injection Hs as <-.
      apply elem_of_difference in Ha as [_ Hn]. apply Hn, elem_of_singleton.
      reflexivity.
    + congruence.
  - exists sub. split; [exact Hsub|]. unfold unsub. simpl.
    rewrite lookup_alter_eq, Hsub. simpl. f_equal.
    unfold close. destruct sub as [q [|]]; reflexivity.
  - intros b Hne. unfold unsub. simpl. apply lookup_alter_ne. congruence.
Qed.

Lemma unsub_tears_down_witness :
  let s0 := fst (CreateGame NewService "g" 1) in
  let s := fst (Subscribe s0 "g" 2 3) in
  let a := snd (Subscribe s0 "g" 2 3) in
  a ∈ copySubsLocked s "g" /\ a ∉ copySubsLocked (unsub s "g" a) "g".
Proof.
  intros s0 s a.
  assert (Hr : reachable s ({[ ("g", a) ]} ∪ ∅))
    by (apply run_Subscribe, run_CreateGame, (run_New (Some nil_renderer))).
  destruct (unsub_tears_down s _ "g" a Hr) as (Hgone & _).
  { apply elem_of_union. left. apply elem_of_singleton. reflexivity. }
  split; [|apply Hgone].
  apply copySubsLocked_elem. eexists. split; [vm_compute; reflexivity|].
  vm_compute. reflexivity.
Defined.

(** X12.  The teardown is safe to run again and after an eviction: a second
    [unsub] of the same subscriber changes nothing, and neither does an
    [unsub] of a subscriber that is already closed and out of the registry
    (one that [Play] has dropped). *)
Theorem unsub_again s id a :
  unsub (unsub s id a) id a = unsub s id a /\
  (forall sub, heap s !! a = Some sub -> closed sub = true ->
     a ∉ copySubsLocked s id -> unsub s id a = s).
Proof.
  split.
  - unfold unsub. simpl. f_equal; [apply delete_sub_twice|].
    apply map_eq. intros b. destruct (decide (a = b)) as [<-|Hne].
    + rewrite !lookup_alter_eq. destruct (heap s !! a); simpl; [|reflexivity].
      rewrite close_close. reflexivity.
    + rewrite !lookup_alter_ne by exact Hne. reflexivity.
  - intros sub Hsub Hc Hn. unfold unsub. destruct s as [g sb h f]. simpl in *.
    f_equal.
    + apply delete_sub_absent. intros set Hs Ha. apply Hn.
      apply copySubsLocked_elem. simpl. eauto.
    + apply map_eq. intros b. destruct (decide (a = b)) as [<-|Hne].
      * rewrite lookup_alter_eq, Hsub. simpl. rewrite close_closed by exact Hc.
        reflexivity.
      * rewrite lookup_alter_ne by exact Hne. reflexivity.
Qed.

Lemma unsub_again_witness :
  let s0 := fst (Join (fst (Join (fst (CreateGame NewService "g" 1))
                              "g" "p1" 2)) "g" "p2" 3) in
  let s := fst (Subscribe s0 "g" 4 5) in
  let a := snd (Subscribe s0 "g" 4 5) in
  exists res1 res2,
    Play s "g" "p1" 0 0 6 = Some res1 /\
    Play (after res1) "g" "p2" 1 1 7 = Some res2 /\
    unsub (after res2) "g" a = after res2.
Proof.
  intros s0 s a.
  assert (E1 : Play s "g" "p1" 0 0 6 = Some _) by (vm_compute; reflexivity).
  match type of E1 with
  | _ = Some ?res1 =>
      exists res1;
      assert (E2 : Play (after res1) "g" "p2" 1 1 7 = Some _)
        by (vm_compute; reflexivity)
  end.
  match type of E2 with
  | _ = Some ?res2 =>
      exists res2; split; [exact E1|]; split; [exact E2|];
      destruct (unsub_again (after res2) "g" a) as [_ Hnoop]
  end.
  apply (Hnoop {| ch := [[]]; closed := true |}).
  - vm_compute. reflexivity.
  - reflexivity.
  - rewrite copySubsLocked_elem. intros (set & Hs & Ha).
    vm_compute in Hs. injection Hs as <-. vm_compute in Ha. discriminate Ha.
Defined.

(** *** A slow subscriber beside a fast one *)

(** The receive of a subscriber that holds one payload. *)
Lemma recv_one s a p :
  heap s !! a = Some {| ch := [p]; closed := false |} ->
  recv s a = ({| games := games s; subs := subs s;
                 heap := <[a := {| ch := []; closed := false |}]> (heap s);
                 render := render s |}, Some p).
Proof. intros H. unfold recv. rewrite H. reflexivity. Qed.

(** X13.  A slow subscriber does not hold up a fast one.  Two subscribers
    of one session, the first never receives, the second receives after
    every publish: the first publish reaches both; the second publish
    closes the first subscriber with the first payload still buffered and
    takes it out of the registry, while the second subscriber receives the
    second payload too and stays registered. *)
Theorem slow_beside_fast s hs id n1 n2 n3 n4 :
  reachable s hs ->
  let s1 := fst (Subscribe s id n1 n2) in
  let slow := snd (Subscribe s id n1 n2) in
  let s2 := fst (Subscribe s1 id n3 n4) in
  let fast := snd (Subscribe s1 id n3 n4) in
  slow <> fast /\
  (forall p1 r1 c1 t1 res1 cp1,
    Play s2 id p1 r1 c1 t1 = Some res1 -> result res1 = Some cp1 ->
    heap (after res1) !! slow
    = Some {| ch := [render s cp1]; closed := false |} /\
    snd (recv (after res1) fast) = Some (render s cp1) /\
    (forall p2 r2 c2 t2 res2 cp2,
       Play (fst (recv (after res1) fast)) id p2 r2 c2 t2 = Some res2 ->
       result res2 = Some cp2 ->
       snd (recv (after res2) fast) = Some (render s cp2) /\
       fast ∈ copySubsLocked (after res2) id /\
       (slow ∉ copySubsLocked (after res2) id) /\
       heap (after res2) !! slow
       = Some {| ch := [render s cp1]; closed := true |})).
Proof.
  intros Hr s1 slow s2 fast.
  pose proof (service_reachable_inv s hs Hr) as Hinv.
  pose proof (inv_Subscribe s hs id n1 n2 Hinv) as Hinv1. fold s1 slow in Hinv1.
  pose proof (inv_Subscribe s1 _ id n3 n4 Hinv1) as Hinv2. fold s2 fast in Hinv2.
  destruct (Subscribe_new s id n1 n2) as [Hs1 Hh1]. fold s1 slow in Hs1, Hh1.
  destruct (Subscribe_new s1 id n3 n4) as [Hf2 Hhf]. fold s2 fast in Hf2, Hhf.
  assert (Hne : slow <> fast).
  { intros E. pose proof (fresh_not_allocated (heap s1)) as Hfresh.
    change (fresh (dom (heap s1))) with fast in Hfresh. rewrite <- E in Hfresh.
    congruence. }
  assert (Hs2 : slow ∈ copySubsLocked s2 id).
  { apply copySubsLocked_elem. unfold s2, Subscribe. simpl.
    rewrite lookup_insert_eq. eexists. split; [reflexivity|].
    apply elem_of_union. left. exact Hs1. }
  assert (Hh2 : heap s2 !! slow = Some {| ch := []; closed := false |}).
  { unfold s2, Subscribe. simpl. rewrite lookup_insert_ne; [exact Hh1|].
    intros E. apply Hne. symmetry. exact E. }
  split; [exact Hne|].
  intros p1 r1 c1 t1 res1 cp1 HP1 Hcp1.
  destruct (publish_one s2 _ id p1 r1 c1 t1 res1 cp1 slow Hinv2 HP1 Hcp1 Hs2)
    as (sub & Hsub & _ & [(_ & Hslow1 & Hsreg1)|(Hlen & _)]);
    [|rewrite Hh2 in Hsub; injection Hsub as <-; discriminate].
  destruct (publish_one s2 _ id p1 r1 c1 t1 res1 cp1 fast Hinv2 HP1 Hcp1 Hf2)
    as (sub' & Hsub' & _ & [(_ & Hfast1 & Hfreg1)|(Hlen & _)]);
    [|rewrite Hhf in Hsub'; injection Hsub' as <-; discriminate].
  change (render s2) with (render s) in Hslow1, Hfast1.
  split; [exact Hslow1|].
  rewrite (recv_one _ fast _ Hfast1). split; [reflexivity|]. simpl fst.
  pose proof (inv_Play s2 _ id p1 r1 c1 t1 res1 Hinv2 HP1) as Hinv3.
  pose proof (inv_recv (after res1) _ fast Hinv3) as Hinv4.
  rewrite (recv_one _ fast _ Hfast1) in Hinv4. simpl fst in Hinv4.
  set (s3 := {| games := games (after res1); subs := subs (after res1);
                heap := <[fast := {| ch := []; closed := false |}]>
                          (heap (after res1));
                render := render (after res1) |}) in *.
  assert (Hrender : render s3 = render s).
  { destruct (Play_result_err _ _ _ _ _ _ _ HP1) as [[He _]|[_ [Hn _]]];
      [|congruence].
    destruct (Play_ok_inv _ _ _ _ _ _ _ HP1 He)
      as (? & ? & ? & ? & ? & _ & _ & _ & _ & ->). reflexivity. }
  assert (Hs3 : slow ∈ copySubsLocked s3 id)
    by (apply copySubsLocked_elem; apply copySubsLocked_elem in Hsreg1; exact Hsreg1).
  assert (Hf3 : fast ∈ copySubsLocked s3 id)
    by (apply copySubsLocked_elem; apply copySubsLocked_elem in Hfreg1; exact Hfreg1).
  assert (Hh3s : heap s3 !! slow = Some {| ch := [render s cp1]; closed := false |}).
  { unfold s3. simpl. rewrite lookup_insert_ne; [exact Hslow1|].
    intros E. apply Hne. symmetry. exact E. }
  assert (Hh3f : heap s3 !! fast = Some {| ch := []; closed := false |})
    by (unfold s3; simpl; apply lookup_insert_eq).
  intros p2 r2 c2 t2 res2 cp2 HP2 Hcp2.
  destruct (publish_one s3 _ id p2 r2 c2 t2 res2 cp2 slow Hinv4 HP2 Hcp2 Hs3)
    as (sub2 & Hsub2 & _ & [(Hnil & _)|(_ & Hslow2 & Hsreg2)]);
    rewrite Hh3s in Hsub2; injection Hsub2 as <-; [discriminate|].
  destruct (publish_one s3 _ id p2 r2 c2 t2 res2 cp2 fast Hinv4 HP2 Hcp2 Hf3)
    as (sub3 & Hsub3 & _ & [(_ & Hfast2 & Hfreg2)|(Hlen & _)]);
    rewrite Hh3f in Hsub3; injection Hsub3 as <-; [|discriminate].
  rewrite Hrender in Hfast2.
  rewrite (recv_one _ fast _ Hfast2). simpl. auto.
Qed.

Lemma slow_beside_fast_witness :
  let s := fst (Join (fst (Join (fst (CreateGame
                 (NewServiceWithRenderer (Some testRenderer)) "g" 1))
                 "g" "p1" 2)) "g" "p2" 3) in
  let s1 := fst (Subscribe s "g" 4 5) in
  let slow := snd (Subscribe s "g" 4 5) in
  let s2 := fst (Subscribe s1 "g" 6 7) in
  let fast := snd (Subscribe s1 "g" 6 7) in
  exists res1 res2,
    Play s2 "g" "p1" 0 0 8 = Some res1 /\
    snd (recv (after res1) fast) = Some [Byte.x2a] /\
    Play (fst (recv (after res1) fast)) "g" "p2" 1 1 9 = Some res2 /\
    snd (recv (after res2) fast) = Some [Byte.x2a; Byte.x2a] /\
    slow ∉ copySubsLocked (after res2) "g".
Proof.
  intros s s1 slow s2 fast.
  assert (Hr : reachable s ∅)
    by (apply run_Join, run_Join, run_CreateGame, (run_New (Some testRenderer))).
  destruct (slow_beside_fast s ∅ "g" 4 5 6 7 Hr) as [_ Hrun].
  fold s1 slow s2 fast in Hrun.
  assert (E1 : Play s2 "g" "p1" 0 0 8 = Some _) by (vm_compute; reflexivity).
  match type of E1 with
  | _ = Some ?res1 =>
      exists res1;
      destruct (Hrun "p1" 0 0 8 res1 _ E1 eq_refl) as (_ & Hrecv1 & Hnext);
      assert (E2 : Play (fst (recv (after res1) fast)) "g" "p2" 1 1 9 = Some _)
        by (vm_compute; reflexivity)
  end.
  match type of E2 with
  | _ = Some ?res2 =>
      exists res2;
      destruct (Hnext "p2" 1 1 9 res2 _ E2 eq_refl) as (Hrecv2 & _ & Hgone & _)
  end.
  split; [exact E1|]. split; [exact Hrecv1|]. split; [exact E2|].
  split; [exact Hrecv2 | exact Hgone].
Defined.

(** *** The renderer *)

(** X14.  [SetRenderer] replaces the renderer and nothing else; a nil
    renderer stands for the one that renders the empty payload; and on a
    reachable service the next publish hands the subscribers with an empty
    channel what the new renderer makes of the snapshot. *)
Theorem SetRenderer_next_publish s hs f :
  reachable s hs ->
  games (SetRenderer s f) = games s /\
  subs (SetRenderer s f) = subs s /\
  heap (SetRenderer s f) = heap s /\
  render (SetRenderer s f)
  = match f with Some g => g | None => fun _ => [] end /\
  forall id playerID r c now res cp a,
    Play (SetRenderer s f) id playerID r c now = Some res ->
    result res = Some cp ->
    a ∈ copySubsLocked s id ->
    heap s !! a = Some {| ch := []; closed := false |} ->
    heap (after res) !! a
    = Some {| ch := [match f with Some g => g cp | None => [] end];
              closed := false |}.
Proof.
  intros Hr. do 3 (split; [reflexivity|]).
  split; [destruct f; reflexivity|].
  intros id playerID r c now res cp a HP Hcp Ha Hh.
  pose proof (service_reachable_inv _ _ (run_SetRenderer s hs f Hr)) as Hinv.
  destruct (publish_one _ _ id playerID r c now res cp a Hinv HP Hcp Ha)
    as (sub & Hsub & _ & [(_ & Hafter & _)|(Hlen & _)]);
    simpl in Hsub; rewrite Hh in Hsub; injection Hsub as <-; [|discriminate].
  rewrite Hafter. destruct f; reflexivity.
Qed.

Lemma SetRenderer_next_publish_witness :
  let s0 := fst (Join (fst (Join (fst (CreateGame NewService "g" 1))
                              "g" "p1" 2)) "g" "p2" 3) in
  let s := fst (Subscribe s0 "g" 4 5) in
  let a := snd (Subscribe s0 "g" 4 5) in
  exists res,
    Play (SetRenderer s (Some testRenderer)) "g" "p1" 0 0 6 = Some res /\
    heap (after res) !! a = Some {| ch := [[Byte.x2a]]; closed := false |}.
Proof.
  intros s0 s a.
  assert (Hr : reachable s ({[ ("g", a) ]} ∪ ∅))
    by (apply run_Subscribe, run_Join, run_Join, run_CreateGame,
          (run_New (Some nil_renderer))).
  destruct (SetRenderer_next_publish s _ (Some testRenderer) Hr)
    as (_ & _ & _ & _ & Hnext).
  assert (E : Play (SetRenderer s (Some testRenderer)) "g" "p1" 0 0 6 = Some _)
    by (vm_compute; reflexivity).
  match type of E with
  | _ = Some ?res =>
      exists res; split; [exact E|];
      rewrite (Hnext "g" "p1" 0 0 6 res _ a E eq_refl)
  end.
  - reflexivity.
  - apply copySubsLocked_elem. eexists. split; [vm_compute; reflexivity|].
    vm_compute. reflexivity.
  - vm_compute. reflexivity.
Defined.

End AppMore.

(** * Properties of the handlers *)

Module WebProofs.
Import app AppProofs web.







End WebProofs.

(** * Properties of the identifiers *)

Module IdsProofs.
Import Stdlib.Strings.Ascii.
Import ids.

(** *** Digits *)

Lemma fixed_hex_length w : forall n, length (fixed_hex w n) = w.
Proof.
  induction w as [|w IH]; intros n; simpl; [reflexivity|].
  rewrite length_app, IH. simpl. lia.
Qed.

Lemma fixed_hex_zero w : fixed_hex w 0 = replicate w "0"%char.
Proof.
  induction w as [|w IH]; [reflexivity|].
  simpl fixed_hex. change (0 / 16) with 0. rewrite IH.
  change [hex_digit (0 mod 16)] with (replicate 1 "0"%char).
  rewrite <- replicate_add. f_equal. lia.
Qed.

(** The digits that [hex_digits] makes are the fixed-width digits without
    their leading zeros. *)
Lemma hex_digits_fixed k : forall fuel n acc,
  (1 <= k <= fuel)%nat -> 0 <= n < 16 ^ Z.of_nat k ->
  exists j ds,
    fixed_hex k n = replicate j "0"%char ++ ds /\
    hex_digits fuel n acc = ds ++ acc.
Proof.
  induction k as [|k IH]; intros fuel n acc Hk Hn; [lia|].
  destruct fuel as [|fuel]; [lia|].
  simpl fixed_hex. simpl hex_digits.
  destruct (n / 16 =? 0) eqn:E.
  - apply Z.eqb_eq in E. rewrite E, fixed_hex_zero.
    exists k, [hex_digit (n mod 16)]. split; reflexivity.
  - apply Z.eqb_neq in E.
    assert (Hpow : 16 ^ Z.of_nat (S k) = 16 * 16 ^ Z.of_nat k)
      by (rewrite Nat2Z.inj_succ, Z.pow_succ_r by lia; reflexivity).
    assert (Hk1 : (1 <= k)%nat).
    { destruct k; [|lia]. exfalso. apply E. apply Z.div_small.
      change (16 ^ Z.of_nat 1) with 16 in Hn. exact Hn. }
    destruct (IH fuel (n / 16) (hex_digit (n mod 16) :: acc)) as (j & ds & Hf & Hh).
    + lia.
    + split; [apply Z.div_pos; lia|].
      apply Z.div_lt_upper_bound; [lia|]. rewrite <- Hpow. lia.
    + exists j, (ds ++ [hex_digit (n mod 16)]). split.
      * rewrite Hf, app_assoc. reflexivity.
      * rewrite Hh, <- app_assoc. reflexivity.
Qed.

(** [%0wx] of a number that fits in [w] digits is its [w] digits. *)
Lemma fmt_0x_fixed w n :
  (1 <= w <= 16)%nat -> 0 <= n < 16 ^ Z.of_nat w -> fmt_0x w n = fixed_hex w n.
Proof.
  intros Hw Hn. unfold fmt_0x.
  destruct (hex_digits_fixed w 16 n [] ltac:(lia) Hn) as (j & ds & Hf & Hh).
  rewrite Hh, app_nil_r, Hf. f_equal. f_equal.
  pose proof (fixed_hex_length w n) as Hl.
  rewrite Hf, length_app, length_replicate in Hl. lia.
Qed.

(** *** Bytes into words *)

Lemma lor_bound k a b :
  0 <= k -> 0 <= a < 2 ^ k -> 0 <= b < 2 ^ k -> 0 <= Z.lor a b < 2 ^ k.
Proof.
  intros Hk Ha Hb.
  assert (H0 : 0 <= Z.lor a b) by (apply Z.lor_nonneg; lia).
  split; [exact H0|].
  apply (Z.bounded_iff_bits_nonneg k); [lia | exact H0|].
  intros l Hl. rewrite Z.lor_spec.
  rewrite (proj1 (Z.bounded_iff_bits_nonneg k a Hk ltac:(lia)) ltac:(lia) l Hl).
  rewrite (proj1 (Z.bounded_iff_bits_nonneg k b Hk ltac:(lia)) ltac:(lia) l Hl).
  reflexivity.
Qed.

Lemma shiftl_byte_bound a s :
  0 <= s -> 0 <= a < 256 -> 0 <= Z.shiftl a s < 2 ^ (8 + s).
Proof.
  intros Hs Ha. rewrite Z.shiftl_mul_pow2 by exact Hs.
  rewrite Z.pow_add_r by lia. change (2 ^ 8) with 256.
  assert (0 < 2 ^ s) by (apply Z.pow_pos_nonneg; lia). nia.
Qed.

(** A byte shifted up by [k] bits and or-ed with less than [k] bits is the
    sum of the two. *)
Lemma lor_shiftl_add hi lo k :
  0 <= k -> 0 <= hi -> 0 <= lo < 2 ^ k ->
  Z.lor (Z.shiftl hi k) lo = hi * 2 ^ k + lo.
Proof.
  intros Hk Hhi Hlo. rewrite <- Z.shiftl_mul_pow2 by exact Hk.
  symmetry. apply Z.add_nocarry_lor. apply Z.bits_inj'. intros i Hi.
  rewrite Z.land_spec, Z.bits_0.
  destruct (Z.lt_ge_cases i k) as [Hlt|Hge].
  - rewrite Z.shiftl_spec_low by exact Hlt. reflexivity.
  - rewrite (proj1 (Z.bounded_iff_bits_nonneg k lo Hk ltac:(lia)) ltac:(lia) i Hge).
    apply andb_false_r.
Qed.

(** The version and the variant written into bytes 6 and 8. *)
Lemma version_byte x :
  0 <= x < 256 -> Z.lor (Z.land x 0x0f) 0x40 = 64 + x mod 16.
Proof.
  intros Hx. change 0x0f with (Z.ones 4). rewrite Z.land_ones by lia.
  change (2 ^ 4) with 16. rewrite Z.lor_comm.
  change 0x40 with (Z.shiftl 1 6).
  rewrite lor_shiftl_add; [reflexivity | lia | lia|].
  change (2 ^ 6) with 64. pose proof (Z.mod_pos_bound x 16 ltac:(lia)). lia.
Qed.

Lemma variant_byte x :
  0 <= x < 256 -> Z.lor (Z.land x 0x3f) 0x80 = 128 + x mod 64.
Proof.
  intros Hx. change 0x3f with (Z.ones 6). rewrite Z.land_ones by lia.
  change (2 ^ 6) with 64. rewrite Z.lor_comm.
  change 0x80 with (Z.shiftl 1 7).
  rewrite lor_shiftl_add; [reflexivity | lia | lia|].
  change (2 ^ 7) with 128. pose proof (Z.mod_pos_bound x 64 ltac:(lia)). lia.
Qed.

Lemma hex_digit_is_hex d : 0 <= d < 16 -> is_hex (hex_digit d) = true.
Proof.
  intros Hd.
  assert (H : d = 0 \/ d = 1 \/ d = 2 \/ d = 3 \/ d = 4 \/ d = 5 \/ d = 6 \/
              d = 7 \/ d = 8 \/ d = 9 \/ d = 10 \/ d = 11 \/ d = 12 \/
              d = 13 \/ d = 14 \/ d = 15) by lia.
  repeat (destruct H as [->|H]; [vm_compute; reflexivity|]).
  subst d. vm_compute. reflexivity.
Qed.

(** The words that [newUUID] prints fit their widths. *)
Lemma word32_bound z0 z1 z2 z3 :
  0 <= z0 < 256 -> 0 <= z1 < 256 -> 0 <= z2 < 256 -> 0 <= z3 < 256 ->
  0 <= Z.lor (Z.lor (Z.lor (Z.shiftl z0 24) (Z.shiftl z1 16)) (Z.shiftl z2 8)) z3
    < 16 ^ Z.of_nat 8.
Proof.
  intros H0 H1 H2 H3. change (16 ^ Z.of_nat 8) with (2 ^ 32).
  pose proof (shiftl_byte_bound z0 24 ltac:(lia) H0) as B0.
  pose proof (shiftl_byte_bound z1 16 ltac:(lia) H1) as B1.
  pose proof (shiftl_byte_bound z2 8 ltac:(lia) H2) as B2.
  change (2 ^ (8 + 24)) with (2 ^ 32) in B0.
  change (2 ^ (8 + 16)) with 16777216 in B1.
  change (2 ^ (8 + 8)) with 65536 in B2.
  assert (E : 2 ^ 32 = 4294967296) by reflexivity.
  repeat apply lor_bound; lia.
Qed.

Lemma word16_bound z0 z1 :
  0 <= z0 < 256 -> 0 <= z1 < 256 ->
  0 <= Z.lor (Z.shiftl z0 8) z1 < 16 ^ Z.of_nat 4.
Proof.
  intros H0 H1. change (16 ^ Z.of_nat 4) with (2 ^ 16).
  pose proof (shiftl_byte_bound z0 8 ltac:(lia) H0) as B0.
  change (2 ^ (8 + 8)) with (2 ^ 16) in B0.
  assert (E : 2 ^ 16 = 65536) by reflexivity.
  apply lor_bound; lia.
Qed.

Lemma word48_bound z0 z1 z2 z3 z4 z5 :
  0 <= z0 < 256 -> 0 <= z1 < 256 -> 0 <= z2 < 256 ->
  0 <= z3 < 256 -> 0 <= z4 < 256 -> 0 <= z5 < 256 ->
  0 <= Z.lor (Z.lor (Z.lor (Z.lor (Z.lor (Z.shiftl z0 40) (Z.shiftl z1 32))
                                   (Z.shiftl z2 24))
                            (Z.shiftl z3 16))
                     (Z.shiftl z4 8))
              z5
    < 16 ^ Z.of_nat 12.
Proof.
  intros H0 H1 H2 H3 H4 H5. change (16 ^ Z.of_nat 12) with (2 ^ 48).
  pose proof (shiftl_byte_bound z0 40 ltac:(lia) H0) as B0.
  pose proof (shiftl_byte_bound z1 32 ltac:(lia) H1) as B1.
  pose proof (shiftl_byte_bound z2 24 ltac:(lia) H2) as B2.
  pose proof (shiftl_byte_bound z3 16 ltac:(lia) H3) as B3.
  pose proof (shiftl_byte_bound z4 8 ltac:(lia) H4) as B4.
  change (2 ^ (8 + 40)) with (2 ^ 48) in B0.
  change (2 ^ (8 + 32)) with 1099511627776 in B1.
  change (2 ^ (8 + 24)) with 4294967296 in B2.
  change (2 ^ (8 + 16)) with 16777216 in B3.
  change (2 ^ (8 + 8)) with 65536 in B4.
  assert (E : 2 ^ 48 = 281474976710656) by reflexivity.
  repeat apply lor_bound; lia.
Qed.

(** X17.  The string that [newUUID] makes of any 16 bytes has the layout
    of a version-4 UUID: 36 characters, hyphens at the positions 8, 13, 18
    and 23 and lower-case hexadecimal digits everywhere else, the version
    digit [4] at position 14 and a variant digit [8], [9], [a] or [b] at
    position 19. *)
Theorem newUUID_layout b :
  bytes16 b ->
  let u := newUUID b in
  length u = 36%nat /\
  u !! 8%nat = Some "-"%char /\ u !! 13%nat = Some "-"%char /\
  u !! 18%nat = Some "-"%char /\ u !! 23%nat = Some "-"%char /\
  u !! 14%nat = Some "4"%char /\
  (exists d, u !! 19%nat = Some d /\
     (d = "8" \/ d = "9" \/ d = "a" \/ d = "b")%char) /\
  (forall i c, u !! i = Some c ->
     i <> 8%nat -> i <> 13%nat -> i <> 18%nat -> i <> 23%nat ->
     is_hex c = true).
Proof.
  intros [Hlen Hb].
  destruct b as [|b0 [|b1 [|b2 [|b3 [|b4 [|b5 [|b6 [|b7 [|b8 [|b9 [|b10 [|b11
    [|b12 [|b13 [|b14 [|b15 [|? ?]]]]]]]]]]]]]]]]]; try discriminate.
  repeat match goal with
         | H : Forall _ (_ :: _) |- _ => apply Forall_cons in H as [? H]
         end.
  clear Hlen Hb.
  unfold newUUID. cbn -[fmt_0x Z.lor Z.land Z.shiftl].
  rewrite version_byte, variant_byte by assumption.
  assert (B6 : 0 <= 64 + b6 mod 16 < 256)
    by (pose proof (Z.mod_pos_bound b6 16 ltac:(lia)); lia).
  assert (B8 : 0 <= 128 + b8 mod 64 < 256)
    by (pose proof (Z.mod_pos_bound b8 64 ltac:(lia)); lia).
  rewrite (fmt_0x_fixed 8) by first [lia | apply word32_bound; assumption].
  rewrite !(fmt_0x_fixed 4) by first [lia | apply word16_bound; assumption].
  rewrite (fmt_0x_fixed 12) by first [lia | apply word48_bound; assumption].
  rewrite (lor_shiftl_add (64 + b6 mod 16) b7 8) by lia.
  rewrite (lor_shiftl_add (128 + b8 mod 64) b9 8) by lia.
  change (2 ^ 8) with 256.
  cbn [fixed_hex app].
  split; [reflexivity|]. do 4 (split; [reflexivity|]).
  split; [|split].
  - cbn [lookup list_lookup]. f_equal.
    replace (((64 + b6 mod 16) * 256 + b7) / 16 / 16 / 16 mod 16) with 4
      by (Z.to_euclidean_division_equations; lia).
    reflexivity.
  - eexists. split; [cbn [lookup list_lookup]; reflexivity|].
    assert (Hd : ((128 + b8 mod 64) * 256 + b9) / 16 / 16 / 16 mod 16 = 8 \/
                 ((128 + b8 mod 64) * 256 + b9) / 16 / 16 / 16 mod 16 = 9 \/
                 ((128 + b8 mod 64) * 256 + b9) / 16 / 16 / 16 mod 16 = 10 \/
                 ((128 + b8 mod 64) * 256 + b9) / 16 / 16 / 16 mod 16 = 11)
      by (Z.to_euclidean_division_equations; lia).
    destruct Hd as [-> |[-> |[-> | ->]]]; vm_compute; auto.
  - intros i c Hi Hi8 Hi13 Hi18 Hi23.
    do 36 (destruct i as [|i];
           [cbn [lookup list_lookup] in Hi; injection Hi as <-;
            first [congruence
                  | apply hex_digit_is_hex; apply Z.mod_pos_bound; lia]|]).
    cbn [lookup list_lookup] in Hi. discriminate.
Qed.

Lemma newUUID_layout_witness :
  exists u,
    newUUID [0; 1; 2; 3; 4; 5; 255; 7; 255; 9; 10; 11; 12; 13; 14; 255] = u /\
    String.string_of_list_ascii u
    = "00010203-0405-4f07-bf09-0a0b0c0d0eff"%string /\
    u !! 14%nat = Some "4"%char.
Proof.
  eexists. split; [reflexivity|]. split; [vm_compute; reflexivity|].
  apply (newUUID_layout [0; 1; 2; 3; 4; 5; 255; 7; 255; 9; 10; 11; 12; 13; 14; 255]).
  split; [reflexivity|]. repeat (apply Forall_cons; split; [lia|]).
  apply Forall_nil. exact I.
Defined.

End IdsProofs.

(** * Properties of the runs in which calls overlap *)

Module ConcProofs.
Import app AppProofs conc.

Lemma exec_all_reachable acts : forall c c',
  reachable c -> exec_all c acts = Some c' -> reachable c'.
Proof.
  induction acts as [|act rest IH]; intros c c' Hr HE; simpl in HE.
  - injection HE as <-. exact Hr.
  - destruct (exec c act) as [c1|] eqn:E1; [|discriminate].
    exact (IH c1 c' (run_exec c act c1 Hr E1) HE).
Qed.












(** *** Subscribe, unsub and the receive of a consumer *)






(** *** The steps of a call under way *)



Lemma try_send_closed p sub :
  try_send p sub = SendOnClosed <-> closed sub = true.
Proof.
  unfold try_send. destruct (closed sub); [tauto|].
  case_bool_decide; split; discriminate.
Qed.













(** *** Every configuration of every run *)




(** *** Counting what was put into a channel *)




(** *** A call that runs alone *)




(** *** What a step does to the threads and to the record *)





(** *** The record of a run *)







(** *** Publishes that take turns *)















End ConcProofs.
